(** * FARM utilities: chunk-size heuristic, IOB tag merging, hex-id codec

    A shallow embedding of [farm/utils.py] and the properties of its three
    self-contained algorithms:
    - [calc_chunksize]              (multiprocessing chunk-size heuristic),
    - [convert_iob_to_simple_tags]  (IOB tags + spans to merged entities),
    - [encode_id] / [decode_id]     (hex identifier <-> four integers),
    and of its smaller helpers [flatten_list], [format_log] and
    [log_ascii_workers].

    Modelling conventions.
    - Python [int] is [Z]; [len] is [nat]; Python [str] is [string],
      restricted to ASCII code points.
    - A call either returns or raises: [result].  The only loop that may run
      forever (the [while] of [calc_chunksize]) is given fuel; running out of
      fuel is [None].
    - NumPy's [ceil] of a true division, [clip] and [int(a / b)] work in
      float64.  They are modelled as the integer ceiling, minimum and
      maximum, and truncation, which is what float64 computes while every
      size is below [2 ^ 53] in absolute value ([float_sized]); the
      properties of [calc_chunksize] that depend on these steps carry
      that hypothesis.
    - The span dictionaries handed to [convert_iob_to_simple_tags] are
      mutable and shared by reference: they live in a heap indexed by
      object identity.
    - A logger is the list of the messages sent to it; the draws of
      [np.random.randint] and the pictures of [farm.visual.ascii.images]
      are parameters.  The generator [flatten_list] is the list of what it
      yields; its loop is defined by well-founded recursion.  The deep copy
      that a call starts with may raise [RecursionError]; the call as a
      whole is [flatten_list_call].
    - The platform is a parameter: what [os.cpu_count()] reports, which is
      nothing where [mp.cpu_count()] raises [NotImplementedError]
      ([calc_chunksize_on]), and the nesting that the recursion limit lets
      [deepcopy] descend. *)

From Stdlib Require Import ZArith List Bool Ascii String Lia Arith Sorted.
From Equations Require Import Equations.
Import ListNotations.

Local Open Scope string_scope.
Local Open Scope Z_scope.

(** ** Outcomes of a Python call *)

Inductive exn : Type :=
| AssertionError
| ValueError
| ZeroDivisionError
| UnboundLocalError
| NotImplementedError
| RecursionError.

Inductive result (A : Type) : Type :=
| Returns (a : A)
| Raises (e : exn).

Arguments Returns {A} a.
Arguments Raises {A} e.

Definition bind {A B : Type} (r : result A) (k : A -> result B) : result B :=
  match r with
  | Returns a => k a
  | Raises e => Raises e
  end.

Notation "x <- r ;; k" := (bind r (fun x => k))
  (at level 61, r at next level, right associativity).

(** ** Python strings (ASCII) *)

Module PyStr.

(** [s[:n]] and [s[n:]] for a non-negative [n]. *)
Fixpoint take (n : nat) (s : string) : string :=
  match n, s with
  | S k, String c r => String c (take k r)
  | _, _ => EmptyString
  end.

Fixpoint drop (n : nat) (s : string) : string :=
  match n, s with
  | S k, String _ r => drop k r
  | _, _ => s
  end.

(** [s[a:b]] for non-negative [a], [b]. *)
Definition slice (a b : nat) (s : string) : string :=
  take (b - a) (drop a s).

Fixpoint map (f : ascii -> ascii) (s : string) : string :=
  match s with
  | EmptyString => EmptyString
  | String c r => String (f c) (map f r)
  end.

Fixpoint forallb (p : ascii -> bool) (s : string) : bool :=
  match s with
  | EmptyString => true
  | String c r => p c && forallb p r
  end.

Fixpoint repeat (c : ascii) (n : nat) : string :=
  match n with
  | O => EmptyString
  | S k => String c (repeat c k)
  end.

Definition code (c : ascii) : Z := Z.of_nat (nat_of_ascii c).

Definition in_range (lo hi : Z) (c : ascii) : bool :=
  (lo <=? code c) && (code c <=? hi).

(** [str.lower] and [str.upper] on ASCII. *)
Definition lower_char (c : ascii) : ascii :=
  if in_range 65 90 c then ascii_of_nat (nat_of_ascii c + 32) else c.

Definition upper_char (c : ascii) : ascii :=
  if in_range 97 122 c then ascii_of_nat (nat_of_ascii c - 32) else c.

Definition lower : string -> string := map lower_char.
Definition upper : string -> string := map upper_char.

(** [s.startswith(pat)]. *)
Fixpoint startswith (pat s : string) : bool :=
  match pat, s with
  | EmptyString, _ => true
  | String a pat', String b s' => Ascii.eqb a b && startswith pat' s'
  | String _ _, EmptyString => false
  end.

(** [pat in s] for a non-empty [pat]. *)
Fixpoint contains (pat s : string) : bool :=
  startswith pat s ||
  match s with
  | EmptyString => false
  | String _ r => contains pat r
  end.

(** [s.replace(old, new)] for a non-empty [old]: left to right, matches do
    not overlap.  [skip] counts the characters of a match still to pass. *)
Fixpoint replace_from (old new : string) (skip : nat) (s : string) : string :=
  match s with
  | EmptyString => EmptyString
  | String c r =>
      match skip with
      | S k => replace_from old new k r
      | O =>
          if startswith old s
          then new ++ replace_from old new (String.length old - 1) r
          else String c (replace_from old new 0 r)
      end
  end.

Definition replace (old new s : string) : string := replace_from old new 0 s.

(** [s.zfill(width)]: left-pad with ["0"], after a leading sign if any. *)
Definition zfill (width : Z) (s : string) : string :=
  let fill := width - Z.of_nat (String.length s) in
  if fill <=? 0 then s
  else
    let zeros := repeat "0"%char (Z.to_nat fill) in
    match s with
    | String c r =>
        if (Ascii.eqb c "+" || Ascii.eqb c "-")%char
        then String c (zeros ++ r)
        else zeros ++ s
    | EmptyString => zeros
    end.

End PyStr.

(** ** [int(s, 16)] and [hex(n)] *)

Module PyInt.
Import PyStr.

(** Value of a character as a digit in bases up to 36; 37 when it is none
    (the interpreter's digit table). *)
Definition digit_value (c : ascii) : Z :=
  if in_range 48 57 c then code c - 48
  else if in_range 97 122 c then code c - 87
  else if in_range 65 90 c then code c - 55
  else 37.

Definition is_space (c : ascii) : bool :=
  in_range 9 13 c || (code c =? 32).

Fixpoint lstrip (s : string) : string :=
  match s with
  | String c r => if is_space c then lstrip r else s
  | EmptyString => EmptyString
  end.

(** The digit loop: digits of the base, single underscores between them.
    [None] is a doubled underscore; otherwise the value read, the number of
    digits, whether the last character read was an underscore, and the rest
    of the input. *)
Fixpoint scan_digits (base : Z) (s : string) (prev_us : bool)
         (acc : Z) (ndigits : nat) : option (Z * nat * bool * string) :=
  match s with
  | EmptyString => Some (acc, ndigits, prev_us, EmptyString)
  | String c r =>
      if Ascii.eqb c "_"
      then (if prev_us then None else scan_digits base r true acc ndigits)
      else if digit_value c <? base
           then scan_digits base r false (acc * base + digit_value c) (S ndigits)
           else Some (acc, ndigits, prev_us, s)
  end.

(** An optional sign in front of the number. *)
Definition split_sign (s : string) : Z * string :=
  match s with
  | String c r =>
      if Ascii.eqb c "+" then (1, r)
      else if Ascii.eqb c "-" then (-1, r)
      else (1, s)
  | EmptyString => (1, s)
  end.

(** An optional [0x] or [0X] in front of the digits of base 16; one
    underscore may follow it. *)
Definition skip_prefix16 (s : string) : string :=
  match s with
  | String c (String x r) =>
      if (Ascii.eqb c "0" && (Ascii.eqb x "x" || Ascii.eqb x "X"))%char
      then match r with
           | String u r' => if Ascii.eqb u "_" then r' else r
           | EmptyString => r
           end
      else s
  | _ => s
  end.

Definition starts_with_underscore (s : string) : bool :=
  match s with
  | String c _ => Ascii.eqb c "_"
  | EmptyString => false
  end.

(** [int(s, 16)]: surrounding whitespace, an optional sign, an optional
    prefix, then the digits; anything else is a [ValueError]. *)
Definition int16 (s : string) : result Z :=
  let '(sign, s2) := split_sign (lstrip s) in
  let s3 := skip_prefix16 s2 in
  if starts_with_underscore s3 then Raises ValueError
  else
    match scan_digits 16 s3 false 0 0 with
    | None => Raises ValueError
    | Some (v, n, us, rest) =>
        if us || Nat.eqb n 0 || negb (PyStr.forallb is_space rest)
        then Raises ValueError
        else Returns (sign * v)
    end.

Definition hex_char (d : Z) : ascii :=
  if d <? 10 then ascii_of_nat (Z.to_nat (d + 48))
  else ascii_of_nat (Z.to_nat (d + 87)).

(** Digits of a non-negative [n], most significant first, no leading
    zero; [fuel] bounds the number of digits. *)
Fixpoint hex_digits (fuel : nat) (n : Z) : string :=
  match fuel with
  | O => EmptyString
  | S f =>
      (if n / 16 =? 0 then EmptyString else hex_digits f (n / 16))
        ++ String (hex_char (n mod 16)) EmptyString
  end.

(** [hex(n)]. *)
Definition hex (n : Z) : string :=
  let a := Z.abs n in
  (if n <? 0 then "-" else "") ++ "0x" ++ hex_digits (S (Z.to_nat (Z.log2 a))) a.

End PyInt.

(** ** The hex identifier codec *)

Import PyStr PyInt.

(** The three slices [encode_id] takes of an identifier of length [len_id]. *)
Definition id_pieces (id : string) : string * string * string :=
  let len_id := String.length id in
  if Nat.eqb len_id 40 then
    (take 14 id, slice 14 27 id, drop 27 id)
  else
    let third := Nat.div len_id 3 in
    (take third id, slice third (third * 2) id, drop (third * 2) id).

Definition encode_id (id : option string) : result (Z * Z * Z * Z) :=
  match id with
  | None => Returns (0, 0, 0, 0)
  | Some id =>
      let len_id := String.length id in
      if negb (existsb (Nat.eqb len_id) [24; 32; 40]%nat) then Raises AssertionError
      else
        let '(hexa_1, hexa_2, hexa_3) := id_pieces id in
        int_1 <- int16 hexa_1 ;;
        int_2 <- int16 hexa_2 ;;
        int_3 <- int16 hexa_3 ;;
        Returns (Z.of_nat len_id, int_1, int_2, int_3)
  end.

Definition decode_id (len_id int_1 int_2 int_3 : Z) : result string :=
  let hexa_1 := drop 2 (hex int_1) in
  let hexa_2 := drop 2 (hex int_2) in
  let hexa_3 := drop 2 (hex int_3) in
  let '(hexa_1, hexa_2, hexa_3) :=
    if len_id =? 40 then
      (zfill 14 hexa_1, zfill 13 hexa_2, zfill 13 hexa_3)
    else
      let third := Z.quot len_id 3 in
      (zfill third hexa_1, zfill third hexa_2, zfill third hexa_3) in
  let hexa := hexa_1 ++ hexa_2 ++ hexa_3 in
  if Z.of_nat (String.length hexa) =? len_id then Returns hexa
  else Raises AssertionError.

(** Decoding the four integers that encoding returns. *)
Definition roundtrip (id : option string) : result string :=
  t <- encode_id id ;;
  let '(len_id, int_1, int_2, int_3) := t in
  decode_id len_id int_1 int_2 int_3.

Definition is_hex_digit (c : ascii) : bool := digit_value c <? 16.

(** The number a string of hex digits denotes, most significant first. *)
Fixpoint hex_value_from (acc : Z) (s : string) : Z :=
  match s with
  | EmptyString => acc
  | String c r => hex_value_from (acc * 16 + digit_value c) r
  end.

Definition hex_value (s : string) : Z := hex_value_from 0 s.

(** A valid identifier: hex digits only, 24, 32 or 40 of them. *)
Definition valid_id (id : string) : Prop :=
  In (String.length id) [24; 32; 40]%nat /\ PyStr.forallb is_hex_digit id = true.

(** The widths of the three pieces for an identifier of [len_id] characters. *)
Definition piece_widths (len_id : nat) : nat * nat * nat :=
  if Nat.eqb len_id 40 then (14, 13, 13)%nat
  else (Nat.div len_id 3, Nat.div len_id 3, len_id - 2 * Nat.div len_id 3)%nat.

(** [n] written with exactly [k] hex digits (the low [k] digits of [n]). *)
Fixpoint hex_fixed (k : nat) (n : Z) : string :=
  match k with
  | O => EmptyString
  | S k' => hex_fixed k' (n / 16) ++ String (hex_char (n mod 16)) EmptyString
  end.

(** Identifiers used in examples. *)
Definition id32 : string := "0123456789abcdef0123456789ABCDEF".
Definition zeros32 : string := "00000000000000000000000000000000".


(** ** The chunk-size heuristic *)

Module Np.

(** [np.ceil(a / b)] on integers, [b] not zero. *)
Definition ceil_div (a b : Z) : Z := - ((- a) / b).

(** [np.clip(x, a_min, a_max)]: the minimum with [a_max] of the maximum
    with [a_min]; the bounds are not checked against each other. *)
Definition clip (x a_min a_max : Z) : Z := Z.min (Z.max x a_min) a_max.

End Np.

(** [x or 1] on integers. *)
Definition or_1 (x : Z) : Z := if x =? 0 then 1 else x.

(** The [while num_dicts % multiprocessing_chunk_size == 1] loop.  Each unit
    of fuel pays for one evaluation of the condition; [None] when the fuel
    does not suffice. *)
Fixpoint grow_chunk_size (fuel : nat) (num_dicts multiprocessing_chunk_size : Z)
  : option (result Z) :=
  match fuel with
  | O => None
  | S fuel' =>
      if multiprocessing_chunk_size =? 0 then Some (Raises ZeroDivisionError)
      else if num_dicts mod multiprocessing_chunk_size =? 1
           then grow_chunk_size fuel' num_dicts (multiprocessing_chunk_size - -1)
           else Some (Returns multiprocessing_chunk_size)
  end.

(** [calc_chunksize]; [cpu_count] is what [mp.cpu_count()] reports. *)
Definition calc_chunksize (fuel : nat) (cpu_count : Z)
           (num_dicts min_chunksize max_chunksize : Z) : option (result (Z * Z)) :=
  let num_cpus := or_1 cpu_count in
  let dicts_per_cpu := Np.ceil_div num_dicts num_cpus in
  let multiprocessing_chunk_size :=
    Np.clip (Np.ceil_div dicts_per_cpu 5) min_chunksize max_chunksize in
  match grow_chunk_size fuel num_dicts multiprocessing_chunk_size with
  | None => None
  | Some (Raises e) => Some (Raises e)
  | Some (Returns multiprocessing_chunk_size) =>
      let dict_batches_to_process := Z.quot num_dicts multiprocessing_chunk_size in
      let num_cpus_used := or_1 (Z.min cpu_count dict_batches_to_process) in
      Some (Returns (multiprocessing_chunk_size, num_cpus_used))
  end.

(** The sizes a float64 holds exactly.  On them the true divisions of
    [calc_chunksize] lose nothing that [np.ceil] and [int] keep, and
    [np.clip] converts its bounds without rounding, so the integer
    arithmetic above is the arithmetic of the code. *)
Definition float_exact (x : Z) : Prop := - 2 ^ 53 < x < 2 ^ 53.

Definition float_sized (cpu_count num_dicts min_chunksize max_chunksize : Z) : Prop :=
  float_exact cpu_count /\ float_exact num_dicts /\
  float_exact min_chunksize /\ float_exact max_chunksize.

(** [mp.cpu_count()]: the count the operating system reports, and an error
    when it reports none. *)
Definition mp_cpu_count (os_cpu_count : option Z) : result Z :=
  match os_cpu_count with
  | Some num => Returns num
  | None => Raises NotImplementedError
  end.

(** The sizes of a call on a platform: once the platform has reported its
    CPUs, the count and the arguments are all ones a float64 holds exactly.
    Beyond them a true division rounds, or overflows and raises
    [OverflowError], and the integer arithmetic stands for neither. *)
Definition float_sized_on (os_cpu_count : option Z)
           (num_dicts min_chunksize max_chunksize : Z) : Prop :=
  match os_cpu_count with
  | Some cpu_count => float_sized cpu_count num_dicts min_chunksize max_chunksize
  | None => True
  end.

(** [calc_chunksize] from its first line on: [mp.cpu_count()] is called
    before anything else. *)
Definition calc_chunksize_on (fuel : nat) (os_cpu_count : option Z)
           (num_dicts min_chunksize max_chunksize : Z) : option (result (Z * Z)) :=
  match mp_cpu_count os_cpu_count with
  | Raises e => Some (Raises e)
  | Returns cpu_count => calc_chunksize fuel cpu_count num_dicts min_chunksize max_chunksize
  end.

(** ** IOB tags to merged spans *)

(** A span is a dictionary with the keys [start] and [end].  The caller's
    span objects live in a heap; a [loc] is the identity of one of them. *)
Definition loc := nat.

Record span : Type := { span_start : Z; span_end : Z }.

Definition heap := loc -> span.

(** [h[l]["end"] = e]. *)
Definition set_end (h : heap) (l : loc) (e : Z) : heap :=
  fun l' =>
    if Nat.eqb l' l then {| span_start := span_start (h l'); span_end := e |}
    else h l'.

(** The local variables of [convert_iob_to_simple_tags] and the heap.
    [cur_tag] and [cur_span] are unbound until the first assignment. *)
Record locals : Type := {
  simple_tags : list string;
  merged_spans : list loc;
  open_tag : bool;
  cur_tag : option string;
  cur_span : option loc;
  store : heap
}.

Definition read {A : Type} (v : option A) : result A :=
  match v with
  | Some a => Returns a
  | None => Raises UnboundLocalError
  end.

(** [merged_spans.append(cur_span); simple_tags.append(cur_tag)]. *)
Definition append_current (st : locals) : result locals :=
  s <- read (cur_span st) ;;
  t <- read (cur_tag st) ;;
  Returns {| simple_tags := simple_tags st ++ [t];
             merged_spans := merged_spans st ++ [s];
             open_tag := open_tag st;
             cur_tag := cur_tag st;
             cur_span := cur_span st;
             store := store st |}.

Definition set_open_tag (b : bool) (st : locals) : locals :=
  {| simple_tags := simple_tags st;
     merged_spans := merged_spans st;
     open_tag := b;
     cur_tag := cur_tag st;
     cur_span := cur_span st;
     store := store st |}.

(** [if open_tag:] append the current entity and clear [open_tag]. *)
Definition end_of_tag (st : locals) : result locals :=
  if open_tag st then
    st' <- append_current st ;;
    Returns (set_open_tag false st')
  else Returns st.

(** One iteration of the [for] loop. *)
Definition iob_step (st : locals) (pred : string) (span : loc) : result locals :=
  if negb (contains "B-" pred || contains "I-" pred) then
    end_of_tag st
  else if contains "B-" pred then
    st' <- (if open_tag st then append_current st else Returns st) ;;
    Returns {| simple_tags := simple_tags st';
               merged_spans := merged_spans st';
               open_tag := true;
               cur_tag := Some (replace "B-" "" pred);
               cur_span := Some span;
               store := store st' |}
  else if contains "I-" pred then
    let this_tag := replace "I-" "" pred in
    same <- (if open_tag st then
               t <- read (cur_tag st) ;;
               Returns (String.eqb this_tag t)
             else Returns false) ;;
    if same then
      let e := span_end (store st span) in
      s <- read (cur_span st) ;;
      Returns {| simple_tags := simple_tags st;
                 merged_spans := merged_spans st;
                 open_tag := open_tag st;
                 cur_tag := cur_tag st;
                 cur_span := cur_span st;
                 store := set_end (store st) s e |}
    else end_of_tag st
  else Returns st.

Fixpoint iob_loop (st : locals) (tokens : list (string * loc)) : result locals :=
  match tokens with
  | [] => Returns st
  | (pred, span) :: rest =>
      st' <- iob_step st pred span ;;
      iob_loop st' rest
  end.

Definition iob_init (h : heap) : locals :=
  {| simple_tags := [];
     merged_spans := [];
     open_tag := false;
     cur_tag := None;
     cur_span := None;
     store := h |}.

(** [convert_iob_to_simple_tags(preds, spans)] run on the heap [h]: the two
    returned lists (the spans by identity) and the heap afterwards. *)
Definition convert_iob_to_simple_tags (h : heap) (preds : list string) (spans : list loc)
  : result (list string * list loc * heap) :=
  st <- iob_loop (iob_init h) (combine preds spans) ;;
  st <- end_of_tag st ;;
  Returns (simple_tags st, merged_spans st, store st).

(** *** The two-state machine of the specification

    States [CLOSED] and [OPEN tag span]; a token is a tag with the value of
    its span.  [O] is a tag with neither prefix. *)

Inductive iob_tag : Type :=
| O_tag
| B_tag (X : string)
| I_tag (X : string).

Definition parse_tag (t : string) : iob_tag :=
  if startswith "B-" t then B_tag (drop 2 t)
  else if startswith "I-" t then I_tag (drop 2 t)
  else O_tag.

Inductive merge_state : Type :=
| CLOSED
| OPEN (tag : string) (sp : span).

Definition emit_open (st : merge_state) : list (string * span) :=
  match st with
  | OPEN tag sp => [(tag, sp)]
  | CLOSED => []
  end.

(** One transition: the next state and what is emitted. *)
Definition spec_step (st : merge_state) (token : string * span)
  : merge_state * list (string * span) :=
  let '(tag, sp) := token in
  match parse_tag tag with
  | O_tag => (CLOSED, emit_open st)
  | B_tag X => (OPEN X sp, emit_open st)
  | I_tag X =>
      match st with
      | OPEN cur cur_sp =>
          if String.eqb X cur
          then (OPEN cur {| span_start := span_start cur_sp; span_end := span_end sp |}, [])
          else (CLOSED, emit_open st)
      | CLOSED => (CLOSED, [])
      end
  end.

Fixpoint spec_run (st : merge_state) (tokens : list (string * span))
  : list (string * span) :=
  match tokens with
  | [] => emit_open st
  | token :: rest =>
      let '(st', out) := spec_step st token in
      (out ++ spec_run st' rest)%list
  end.

Definition merge_iob_spans (tags : list string) (spans : list span)
  : list string * list span :=
  let out := spec_run CLOSED (combine tags spans) in
  (List.map fst out, List.map snd out).

(** The value of every span of a list of references. *)
Definition deref (h : heap) (ls : list loc) : list span := List.map h ls.

(** A heap for examples: span [i] of the list, a dummy elsewhere. *)
Definition heap_of (l : list span) : heap :=
  fun i => nth i l {| span_start := 0; span_end := 0 |}.

Definition mk (s e : Z) : span := {| span_start := s; span_end := e |}.

(** The tokens that open an entity in the code: those whose tag contains
    ["B-"]. *)
Definition opening (tokens : list (string * loc)) : list (string * loc) :=
  filter (fun token => contains "B-" (fst token)) tokens.

(** A type name that the substring tests of the code cannot mistake: it
    contains neither ["B-"] nor ["I-"]. *)
Definition clean_type (X : string) : Prop :=
  contains "B-" X = false /\ contains "I-" X = false.

(** The labels [O], [B-X] and [I-X] over clean type names. *)
Inductive iob_label : string -> Prop :=
| label_O : iob_label "O"
| label_B (X : string) : clean_type X -> iob_label ("B-" ++ X)
| label_I (X : string) : clean_type X -> iob_label ("I-" ++ X).

(** The entities the machine's reading of the tags announces: type and span
    of every [B-] token, in input order. *)
Definition openers (tokens : list (string * loc)) : list (string * loc) :=
  flat_map (fun token =>
              match parse_tag (fst token) with
              | B_tag X => [(X, snd token)]
              | _ => []
              end) tokens.

(** *** Invariants of the loop *)

(** While [open_tag] is set, [cur_tag] and [cur_span] are bound. *)
Definition bound (st : locals) : Prop :=
  open_tag st = true -> exists t s, cur_tag st = Some t /\ cur_span st = Some s.

(** The entities so far: the appended ones, then the open one. *)
Definition all_tags (st : locals) : list string :=
  (simple_tags st ++
   match open_tag st, cur_tag st with
   | true, Some t => [t]
   | _, _ => []
   end)%list.

Definition all_spans (st : locals) : list loc :=
  (merged_spans st ++
   match open_tag st, cur_span st with
   | true, Some s => [s]
   | _, _ => []
   end)%list.

(** How a state [st'] extends a state [st] by the entities [ts], [ls]. *)
Definition extends (st st' : locals) (ts : list string) (ls : list loc) : Prop :=
  bound st' /\
  all_tags st' = (all_tags st ++ ts)%list /\
  all_spans st' = (all_spans st ++ ls)%list /\
  (forall l, span_start (store st' l) = span_start (store st l)) /\
  (forall l, ~ In l (all_spans st') -> store st' l = store st l).

(** The state of the code stands for a state of the machine. *)
Inductive sim (st : locals) : merge_state -> Prop :=
| sim_closed : open_tag st = false -> sim st CLOSED
| sim_open (t : string) (s : loc) :
    open_tag st = true -> cur_tag st = Some t -> cur_span st = Some s ->
    ~ In s (merged_spans st) ->
    sim st (OPEN t (store st s)).

(** The spans still to come are new objects: different from each other,
    from the appended ones and from the open one. *)
Definition fresh (st : locals) (ls : list loc) : Prop :=
  NoDup ls /\
  forall l, In l ls ->
            ~ In l (merged_spans st) /\ (open_tag st = true -> cur_span st <> Some l).

Definition token_values (h : heap) (tokens : list (string * loc)) : list (string * span) :=
  List.map (fun token => (fst token, h (snd token))) tokens.

(** The returned tags with the values of the returned spans. *)
Definition merged_values (r : result (list string * list loc * heap))
  : option (list string * list span) :=
  match r with
  | Returns (tags, locs, h') => Some (tags, deref h' locs)
  | Raises _ => None
  end.

(** Heaps used in examples. *)
Definition heap1 : heap := heap_of [mk 0 1].
Definition heap2 : heap := heap_of [mk 0 1; mk 2 5].


(** ** Further definitions: codec, chunk size, spans *)

(** A 24-digit identifier used in examples. *)
Definition id24 : string := "00ff00ff00FF00ff00ff00ff".

(** The tuples [decode_id] is made for: length 24 or 40 and three integers
    that fit the widths of the pieces. *)
Definition fits (len_id int_1 int_2 int_3 : Z) : Prop :=
  (len_id = 24 /\ 0 <= int_1 < 16 ^ 8 /\ 0 <= int_2 < 16 ^ 8 /\ 0 <= int_3 < 16 ^ 8) \/
  (len_id = 40 /\ 0 <= int_1 < 16 ^ 14 /\ 0 <= int_2 < 16 ^ 13 /\ 0 <= int_3 < 16 ^ 13).

(** The chunk size before the [while] loop. *)
Definition initial_chunk_size (cpu_count num_dicts min_chunksize max_chunksize : Z) : Z :=
  Np.clip (Np.ceil_div (Np.ceil_div num_dicts (or_1 cpu_count)) 5) min_chunksize max_chunksize.

(** A span with its start not after its end. *)
Definition well_formed (sp : span) : Prop := span_start sp <= span_end sp.

(** Token spans in reading order: each well formed, ends never going back. *)
Definition in_reading_order (spans : list span) : Prop :=
  Forall well_formed spans /\
  StronglySorted (fun a b => span_end a <= span_end b) spans.

(** ** [flatten_list] *)

(** A Python value as [flatten_list] sees it: a list of values, or anything
    else. *)
#[local] Set Warnings "-register-all".

Inductive pyobj (A : Type) : Type :=
| Atom (a : A)
| PyList (items : list (pyobj A)).

Arguments Atom {A} a.
Arguments PyList {A} items.

(** The number of nodes of a value: the measure that goes down in the loop. *)
Fixpoint weight {A : Type} (o : pyobj A) : nat :=
  match o with
  | Atom _ => 1
  | PyList items => S (list_sum (List.map weight items))
  end.

Definition weights {A : Type} (l : list (pyobj A)) : nat := list_sum (List.map weight l).

(** The [while nested_list:] loop: pop the first element; a list is put
    back in front, unpacked; anything else is yielded. *)
Equations? flatten_loop {A : Type} (nested_list : list (pyobj A)) : list A
  by wf (weights nested_list) lt :=
  flatten_loop [] := [];
  flatten_loop (PyList sublist :: rest) := flatten_loop (sublist ++ rest)%list;
  flatten_loop (Atom a :: rest) := a :: flatten_loop rest.
Proof.
  unfold weights. rewrite map_app, list_sum_app.
  change (list_sum (List.map weight (PyList sublist :: rest)))
    with (S (list_sum (List.map weight sublist)) + list_sum (List.map weight rest))%nat.
  lia.
Qed.

(** How many calls of [deepcopy] are nested to copy a value: [deepcopy]
    calls itself on every item of a list, so it is one call for what is no
    list and one more than for its deepest item for a list. *)
Fixpoint copy_depth {A : Type} (o : pyobj A) : nat :=
  match o with
  | Atom _ => 1
  | PyList items => S (list_max (List.map copy_depth items))
  end.

(** [deepcopy(nested_list)]: the copy is made by recursion on the nesting,
    and when that takes more nested calls than the [copy_limit] that the
    interpreter's recursion limit leaves room for, the call raises
    [RecursionError].  The copy is the same value; what is no list is taken
    to be plain data. *)
Definition deepcopy {A : Type} (copy_limit : nat) (nested_list : list (pyobj A))
  : result (list (pyobj A)) :=
  if Nat.leb (copy_depth (PyList nested_list)) copy_limit then Returns nested_list
  else Raises RecursionError.

(** What [flatten_list(nested_list)] yields, in order, once the deep copy
    is made: the loop runs on the copy, so the argument is only read. *)
Definition flatten_list {A : Type} (nested_list : list (pyobj A)) : list A :=
  flatten_loop nested_list.

(** The whole call [list(flatten_list(nested_list))]: the deep copy, then
    the loop on it. *)
Definition flatten_list_call {A : Type} (copy_limit : nat) (nested_list : list (pyobj A))
  : result (list A) :=
  copy <- deepcopy copy_limit nested_list ;;
  Returns (flatten_list copy).

(** The leaves of a value, left to right, by recursion on its structure. *)
Fixpoint leaves {A : Type} (o : pyobj A) : list A :=
  match o with
  | Atom a => [a]
  | PyList items => flat_map leaves items
  end.

(** ** Logging helpers *)

(** [s.split(sep)] for a separator of one character. *)
Fixpoint split_on (sep : ascii) (s : string) : list string :=
  match s with
  | EmptyString => [EmptyString]
  | String c r =>
      if Ascii.eqb c sep then EmptyString :: split_on sep r
      else match split_on sep r with
           | w :: ws => String c w :: ws
           | [] => [String c EmptyString]
           end
  end.

(** [sep.join(l)]. *)
Fixpoint join (sep : string) (l : list string) : string :=
  match l with
  | [] => EmptyString
  | [w] => w
  | w :: ws => w ++ sep ++ join sep ws
  end.

Definition newline : ascii := "010"%char.

(** A logger, as the messages sent to its [info], oldest first. *)
Definition logger := list string.

Definition info (log : logger) (msg : string) : logger := (log ++ [msg])%list.

(** [format_log(ascii, logger)]: one [logger.info] for each line. *)
Definition format_log (ascii : string) (log : logger) : logger :=
  fold_left info (split_on newline ascii) log.

(** [zip] of the unpacked rows: the i-th tuple holds the i-th element of every row; it
    stops with the shortest row, and there is no tuple without rows. *)
Fixpoint zip_star (rows : list (list string)) : list (list string) :=
  match rows with
  | [] => []
  | [row] => List.map (fun w => [w]) row
  | row :: rest => List.map (fun p => fst p :: snd p) (combine row (zip_star rest))
  end.

Section Workers.

(** The three pictures of [farm.visual.ascii.images]. *)
Variables WORKER_M WORKER_F WORKER_X : string.

(** [randint i] is what the i-th call of [np.random.randint] returns. *)
Variable randint : nat -> Z.

Definition worker_lines (rand : Z) : list string :=
  if rand mod 3 =? 0 then split_on newline WORKER_F
  else if rand mod 3 =? 1 then split_on newline WORKER_M
  else split_on newline WORKER_X.

(** [log_ascii_workers(n, logger)]. *)
Definition log_ascii_workers (n : Z) (log : logger) : logger :=
  let all_worker_lines :=
    List.map (fun i => worker_lines (randint i)) (seq 0 (Z.to_nat n)) in
  let zipped := zip_star all_worker_lines in
  fold_left (fun log z => info log (join "  " z)) zipped log.

End Workers.

(** Occurrences of a character in a string. *)
Fixpoint count_char (c : ascii) (s : string) : nat :=
  match s with
  | EmptyString => 0
  | String d r => (if Ascii.eqb d c then 1 else 0) + count_char c r
  end.


(** * Properties *)

(** ** Examples *)

Example encode_24 :
  encode_id (Some "00ff00ff00FF00ff00ff00ff") = Returns (24, 16711935, 16711935, 16711935).
Proof. reflexivity. Qed.

Example roundtrip_24 :
  roundtrip (Some "00ff00ff00FF00ff00ff00ff") = Returns "00ff00ff00ff00ff00ff00ff".
Proof. vm_compute. reflexivity. Qed.

Example roundtrip_40 :
  roundtrip (Some "0123456789ABCDEF0123456789abcdef01234567")
  = Returns "0123456789abcdef0123456789abcdef01234567".
Proof. vm_compute. reflexivity. Qed.

Example encode_too_short : encode_id (Some "abc") = Raises AssertionError.
Proof. reflexivity. Qed.

Example encode_not_hex :
  encode_id (Some "g0ff00ff00ff00ff00ff00ff") = Raises ValueError.
Proof. reflexivity. Qed.

Example chunksize_100_on_8 : calc_chunksize 1 8 100 4 2000 = Some (Returns (4, 8)).
Proof. reflexivity. Qed.

Example chunksize_13_on_8 : calc_chunksize 2 8 13 4 2000 = Some (Returns (5, 2)).
Proof. reflexivity. Qed.

Example chunksize_past_max : calc_chunksize 2 2 1000001 4 2000 = Some (Returns (2001, 2)).
Proof. reflexivity. Qed.

Example chunksize_no_max : calc_chunksize 1 8 5 4 0 = Some (Raises ZeroDivisionError).
Proof. reflexivity. Qed.

Example merge_per_loc :
  merged_values
    (convert_iob_to_simple_tags
       (heap_of [mk 0 1; mk 2 5; mk 6 9; mk 10 11; mk 12 15])
       ["O"; "B-PER"; "I-PER"; "O"; "B-LOC"] [0; 1; 2; 3; 4]%nat)
  = Some (["PER"; "LOC"], [mk 2 9; mk 12 15]).
Proof. reflexivity. Qed.

Example merge_stray_inside :
  merged_values
    (convert_iob_to_simple_tags
       (heap_of [mk 0 1; mk 2 5; mk 6 9])
       ["I-PER"; "B-PER"; "B-LOC"] [0; 1; 2]%nat)
  = Some (["PER"; "LOC"], [mk 2 5; mk 6 9]).
Proof. reflexivity. Qed.

(** One span object handed in twice: the second entity sees the end that
    the first one wrote, where the machine, working on values, does not. *)
Example merge_shared_span :
  merged_values
    (convert_iob_to_simple_tags heap2 ["B-X"; "I-X"; "B-Y"] [0; 1; 0]%nat)
  = Some (["X"; "Y"], [mk 0 5; mk 0 5]) /\
  merge_iob_spans ["B-X"; "I-X"; "B-Y"] (deref heap2 [0; 1; 0]%nat)
  = (["X"; "Y"], [mk 0 5; mk 0 1]).
Proof. split; reflexivity. Qed.

(** A continuation tag whose type contains ["B-"] is taken for an opening
    one. *)
Example merge_continuation_taken_for_opening :
  merged_values
    (convert_iob_to_simple_tags heap2 ["B-JOB-TITLE"; "I-JOB-TITLE"] [0; 1]%nat)
  = Some (["JOTITLE"; "I-JOTITLE"], [mk 0 1; mk 2 5]).
Proof. reflexivity. Qed.

(** ** String slices *)

Section StringLemmas.

Variable f : ascii -> ascii.
Variable p : ascii -> bool.

Lemma take_drop (n : nat) (s : string) : take n s ++ drop n s = s.
Proof.
  revert s; induction n as [|n IH]; intros [|c r]; simpl; try reflexivity.
  now rewrite IH.
Qed.

Lemma length_take (n : nat) (s : string) :
  String.length (take n s) = Nat.min n (String.length s).
Proof.
  revert s; induction n as [|n IH]; intros [|c r]; simpl; try reflexivity.
  now rewrite IH.
Qed.

Lemma length_drop (n : nat) (s : string) :
  String.length (drop n s) = (String.length s - n)%nat.
Proof.
  revert s; induction n as [|n IH]; intros [|c r]; simpl; try reflexivity.
  now rewrite IH.
Qed.

Lemma drop_drop (n m : nat) (s : string) : drop n (drop m s) = drop (m + n) s.
Proof.
  revert s; induction m as [|m IH]; intros s; simpl; [reflexivity|].
  destruct s as [|c r]; [now destruct n|]. apply IH.
Qed.

Lemma length_append (s t : string) :
  String.length (s ++ t) = (String.length s + String.length t)%nat.
Proof. induction s as [|c r IH]; simpl; [reflexivity|]. now rewrite IH. Qed.

Lemma str_length_map (s : string) :
  String.length (PyStr.map f s) = String.length s.
Proof. induction s as [|c r IH]; simpl; [reflexivity|]. now rewrite IH. Qed.

Lemma map_take (n : nat) (s : string) :
  PyStr.map f (take n s) = take n (PyStr.map f s).
Proof.
  revert s; induction n as [|n IH]; intros [|c r]; simpl; try reflexivity.
  now rewrite IH.
Qed.

Lemma map_drop (n : nat) (s : string) :
  PyStr.map f (drop n s) = drop n (PyStr.map f s).
Proof.
  revert s; induction n as [|n IH]; intros [|c r]; simpl; try reflexivity.
  apply IH.
Qed.

Lemma map_append (s t : string) :
  PyStr.map f (s ++ t) = PyStr.map f s ++ PyStr.map f t.
Proof. induction s as [|c r IH]; simpl; [reflexivity|]. now rewrite IH. Qed.

Lemma forallb_append (s t : string) :
  PyStr.forallb p (s ++ t) = PyStr.forallb p s && PyStr.forallb p t.
Proof.
  induction s as [|c r IH]; simpl; [reflexivity|].
  now rewrite IH, andb_assoc.
Qed.

Lemma forallb_take (n : nat) (s : string) :
  PyStr.forallb p s = true -> PyStr.forallb p (take n s) = true.
Proof.
  revert s; induction n as [|n IH]; intros [|c r]; simpl; try reflexivity.
  intros H; apply andb_prop in H as [Hc Hr]. now rewrite Hc, IH.
Qed.

Lemma forallb_drop (n : nat) (s : string) :
  PyStr.forallb p s = true -> PyStr.forallb p (drop n s) = true.
Proof.
  revert s; induction n as [|n IH]; intros [|c r]; simpl; try easy.
  intros H; apply andb_prop in H as [_ Hr]. now apply IH.
Qed.

Lemma length_repeat (c : ascii) (n : nat) : String.length (PyStr.repeat c n) = n.
Proof. induction n as [|n IH]; simpl; [reflexivity|]. now rewrite IH. Qed.

Lemma append_assoc (s t u : string) : (s ++ t) ++ u = s ++ t ++ u.
Proof. induction s as [|c r IH]; simpl; [reflexivity|]. now rewrite IH. Qed.

Lemma append_empty_r (s : string) : s ++ "" = s.
Proof. induction s as [|c r IH]; simpl; [reflexivity|]. now rewrite IH. Qed.

End StringLemmas.

(** ** Characters: facts checked on all 256 of them *)

Ltac each_char c :=
  destruct c as [[] [] [] [] [] [] [] []].

Lemma hex_digit_not_underscore (c : ascii) :
  is_hex_digit c = true -> Ascii.eqb c "_" = false.
Proof. each_char c; intros H; try reflexivity; vm_compute in H; discriminate. Qed.

Lemma hex_digit_not_space (c : ascii) :
  is_hex_digit c = true -> is_space c = false.
Proof. each_char c; intros H; try reflexivity; vm_compute in H; discriminate. Qed.

Lemma hex_digit_not_sign (c : ascii) :
  is_hex_digit c = true -> Ascii.eqb c "+" = false /\ Ascii.eqb c "-" = false.
Proof. each_char c; intros H; try (split; reflexivity); vm_compute in H; discriminate. Qed.

Lemma hex_digit_not_x (c : ascii) :
  is_hex_digit c = true -> (Ascii.eqb c "x" || Ascii.eqb c "X")%char = false.
Proof. each_char c; intros H; try reflexivity; vm_compute in H; discriminate. Qed.

Lemma hex_digit_range (c : ascii) :
  is_hex_digit c = true -> 0 <= digit_value c < 16.
Proof.
  unfold is_hex_digit; intros H; apply Z.ltb_lt in H. split; [|exact H].
  apply Z.leb_le. clear H. each_char c; reflexivity.
Qed.

Lemma hex_char_digit_value (c : ascii) :
  is_hex_digit c = true -> hex_char (digit_value c) = lower_char c.
Proof. each_char c; intros H; try reflexivity; vm_compute in H; discriminate. Qed.

Lemma digit_value_upper (c : ascii) : digit_value (upper_char c) = digit_value c.
Proof. each_char c; reflexivity. Qed.

Lemma digit_value_lower (c : ascii) : digit_value (lower_char c) = digit_value c.
Proof. each_char c; reflexivity. Qed.

(** ** Parsing a string of hex digits *)

Lemma scan_digits_hex (s : string) :
  PyStr.forallb is_hex_digit s = true ->
  forall (us : bool) (acc : Z) (n : nat),
    scan_digits 16 s us acc n
    = Some (hex_value_from acc s, (n + String.length s)%nat,
            match s with EmptyString => us | _ => false end, EmptyString).
Proof.
  induction s as [|c r IH]; intros H us acc n; simpl.
  - now rewrite Nat.add_0_r.
  - simpl in H. apply andb_prop in H as [Hc Hr].
    rewrite (hex_digit_not_underscore c Hc).
    unfold is_hex_digit in Hc. rewrite Hc.
    rewrite (IH Hr). replace (S n + String.length r)%nat with (n + S (String.length r))%nat by lia.
    now destruct r.
Qed.

Lemma int16_hex (s : string) :
  s <> EmptyString ->
  PyStr.forallb is_hex_digit s = true ->
  int16 s = Returns (hex_value s).
Proof.
  destruct s as [|c r]; [congruence|]. intros _ H.
  pose proof H as H'. simpl in H'. apply andb_prop in H' as [Hc Hr].
  destruct (hex_digit_not_sign c Hc) as [Hplus Hminus].
  unfold int16. cbn [lstrip]. rewrite (hex_digit_not_space c Hc).
  cbn [split_sign]. rewrite Hplus, Hminus.
  assert (Hpre : skip_prefix16 (String c r) = String c r).
  { destruct r as [|x r']; [reflexivity|]. cbn [skip_prefix16].
    simpl in Hr. apply andb_prop in Hr as [Hx _].
    now rewrite (hex_digit_not_x x Hx), andb_false_r. }
  rewrite Hpre. cbn [starts_with_underscore].
  rewrite (hex_digit_not_underscore c Hc).
  rewrite (scan_digits_hex _ H). cbn [orb Nat.eqb Nat.add String.length PyStr.forallb negb].
  unfold hex_value. now rewrite Z.mul_1_l.
Qed.

Lemma hex_value_from_map (f : ascii -> ascii) :
  (forall c, digit_value (f c) = digit_value c) ->
  forall s acc, hex_value_from acc (PyStr.map f s) = hex_value_from acc s.
Proof.
  intros Hf s; induction s as [|c r IH]; intros acc; simpl; [reflexivity|].
  now rewrite Hf, IH.
Qed.

Lemma forallb_hex_map (f : ascii -> ascii) :
  (forall c, digit_value (f c) = digit_value c) ->
  forall s, PyStr.forallb is_hex_digit (PyStr.map f s) = PyStr.forallb is_hex_digit s.
Proof.
  intros Hf s; induction s as [|c r IH]; simpl; [reflexivity|].
  unfold is_hex_digit at 1. rewrite Hf. fold (is_hex_digit c). now rewrite IH.
Qed.

(** ** The pieces of an identifier *)


Lemma id_pieces_spec (id : string) :
  In (String.length id) [24; 32; 40]%nat ->
  let '(hexa_1, hexa_2, hexa_3) := id_pieces id in
  hexa_1 ++ hexa_2 ++ hexa_3 = id /\
  (String.length hexa_1, String.length hexa_2, String.length hexa_3)
  = piece_widths (String.length id).
Proof.
  intros Hlen. unfold id_pieces, piece_widths, slice.
  assert (Hcat : forall a b, take a id ++ take (b - a) (drop a id) ++ drop (a + (b - a)) id = id).
  { intros a b. rewrite <- (drop_drop (b - a) a id), take_drop. apply take_drop. }
  simpl in Hlen.
  destruct Hlen as [H|[H|[H|[]]]]; rewrite <- H; cbn [Nat.eqb Nat.div Nat.divmod fst Nat.mul Nat.add Nat.sub];
    (split; [ first [exact (Hcat 8 16)%nat | exact (Hcat 10 20)%nat | exact (Hcat 14 27)%nat]
            | rewrite !length_take, !length_drop, <- H; reflexivity ]).
Qed.

Lemma id_pieces_map (f : ascii -> ascii) (id : string) :
  id_pieces (PyStr.map f id)
  = let '(a, b, c) := id_pieces id in (PyStr.map f a, PyStr.map f b, PyStr.map f c).
Proof.
  unfold id_pieces, slice. rewrite str_length_map.
  destruct (Nat.eqb (String.length id) 40); now rewrite !map_take, !map_drop.
Qed.

Lemma id_pieces_hex (id : string) :
  valid_id id ->
  let '(a, b, c) := id_pieces id in
  (a <> EmptyString /\ PyStr.forallb is_hex_digit a = true) /\
  (b <> EmptyString /\ PyStr.forallb is_hex_digit b = true) /\
  (c <> EmptyString /\ PyStr.forallb is_hex_digit c = true).
Proof.
  intros [Hlen Hhex]. pose proof (id_pieces_spec id Hlen) as Hs.
  destruct (id_pieces id) as [[a b] c]. destruct Hs as [Hcat Hw].
  rewrite <- Hcat in Hhex. rewrite !forallb_append in Hhex.
  apply andb_prop in Hhex as [Ha Hbc]. apply andb_prop in Hbc as [Hb Hc].
  assert (Hpos : (0 < String.length a /\ 0 < String.length b /\ 0 < String.length c)%nat).
  { simpl in Hlen. destruct Hlen as [H|[H|[H|[]]]]; rewrite <- H in Hw;
      change (piece_widths 24) with (8, 8, 12 - 4)%nat in Hw;
      change (piece_widths 32) with (10, 10, 12)%nat in Hw;
      change (piece_widths 40) with (14, 13, 13)%nat in Hw;
      injection Hw as -> -> ->; lia. }
  destruct Hpos as (Pa & Pb & Pc).
  repeat split; try assumption; intros ->; simpl in *; lia.
Qed.

(** On a valid identifier [encode_id] returns the length and the values of
    the three pieces. *)
Lemma encode_id_valid (id : string) :
  valid_id id ->
  encode_id (Some id)
  = let '(a, b, c) := id_pieces id in
    Returns (Z.of_nat (String.length id), hex_value a, hex_value b, hex_value c).
Proof.
  intros Hv. pose proof (id_pieces_hex id Hv) as Hp. destruct Hv as [Hlen _].
  unfold encode_id.
  assert (Hin : existsb (Nat.eqb (String.length id)) [24; 32; 40]%nat = true).
  { apply existsb_exists. exists (String.length id). split; [assumption|apply Nat.eqb_refl]. }
  rewrite Hin. cbn [negb].
  destruct (id_pieces id) as [[a b] c]. destruct Hp as ((Na & Ha) & (Nb & Hb) & (Nc & Hc)).
  now rewrite (int16_hex a Na Ha), (int16_hex b Nb Hb), (int16_hex c Nc Hc).
Qed.

(** ** Claims about [encode_id] *)


(** Claim C2, as stated, fails: an identifier of 32 characters is not cut
    into three equal thirds; its pieces have 10, 10 and 12 characters. *)
Lemma C2_thirds_of_32_unequal :
  valid_id id32 /\
  let '(hexa_1, hexa_2, hexa_3) := id_pieces id32 in
  (String.length hexa_1, String.length hexa_2, String.length hexa_3) = (10, 10, 12)%nat /\
  String.length hexa_3 <> String.length hexa_1 /\
  String.length hexa_3 <> Nat.div (String.length id32) 3.
Proof.
  split.
  - split; [simpl; tauto | reflexivity].
  - cbv. repeat split; discriminate.
Qed.

(** Claim C2, amended: for every valid identifier the three pieces that are
    parsed in base 16 are consecutive and make up the whole identifier, with
    widths 14/13/13 for length 40, 8/8/8 for length 24 and 10/10/12 for
    length 32 (two pieces of [len // 3] characters, the last one takes the
    rest). *)
Theorem C2_partition (id : string) :
  valid_id id ->
  let '(hexa_1, hexa_2, hexa_3) := id_pieces id in
  hexa_1 ++ hexa_2 ++ hexa_3 = id /\
  (String.length hexa_1, String.length hexa_2, String.length hexa_3)
  = (if Nat.eqb (String.length id) 40 then (14, 13, 13)
     else if Nat.eqb (String.length id) 24 then (8, 8, 8)
     else (10, 10, 12))%nat /\
  encode_id (Some id)
  = Returns (Z.of_nat (String.length id),
             hex_value hexa_1, hex_value hexa_2, hex_value hexa_3).
Proof.
  intros Hv. pose proof (encode_id_valid id Hv) as He.
  destruct Hv as [Hlen _]. pose proof (id_pieces_spec id Hlen) as Hs.
  destruct (id_pieces id) as [[a b] c]. destruct Hs as [Hcat Hw].
  repeat split; [exact Hcat | | exact He].
  rewrite Hw. simpl in Hlen.
  destruct Hlen as [H|[H|[H|[]]]]; rewrite <- H; reflexivity.
Qed.

Lemma C2_partition_witness :
  valid_id id32 /\
  let '(hexa_1, hexa_2, hexa_3) := id_pieces id32 in
  hexa_1 ++ hexa_2 ++ hexa_3 = id32 /\
  (String.length hexa_1, String.length hexa_2, String.length hexa_3) = (10, 10, 12)%nat.
Proof.
  assert (Hv : valid_id id32) by (split; [simpl; tauto | reflexivity]).
  split; [exact Hv|].
  pose proof (C2_partition id32 Hv) as H.
  destruct (id_pieces id32) as [[a b] c]. destruct H as (Hcat & Hw & _).
  split; [exact Hcat | exact Hw].
Defined.

(** Claim C3, as stated, fails: decoding the sentinel does not return. *)
Lemma C3_decode_sentinel_does_not_return :
  ~ (encode_id None = Returns (0, 0, 0, 0) /\
     exists s, decode_id 0 0 0 0 = Returns s).
Proof. intros [_ [s H]]. vm_compute in H. discriminate. Qed.

(** Claim C3, amended: [encode_id None] returns exactly [(0, 0, 0, 0)];
    [decode_id 0 0 0 0] builds the three-character string ["000"] and then
    fails its length assertion. *)
Theorem C3_sentinel :
  encode_id None = Returns (0, 0, 0, 0) /\
  decode_id 0 0 0 0 = Raises AssertionError /\
  zfill 0 (drop 2 (hex 0)) ++ zfill 0 (drop 2 (hex 0)) ++ zfill 0 (drop 2 (hex 0)) = "000".
Proof. repeat split. Qed.

Lemma int16_outcome (s : string) :
  (exists v, int16 s = Returns v) \/ int16 s = Raises ValueError.
Proof.
  unfold int16. destruct (split_sign (lstrip s)) as [sign s2].
  destruct (starts_with_underscore _); [now right|].
  destruct (scan_digits _ _ _ _ _) as [[[[v n] us] rest]|]; [|now right].
  destruct (us || _ || _); [now right | left; eauto].
Qed.

(** Claim C4: [encode_id] raises its length assertion exactly on a string
    whose length is not 24, 32 or 40; on the absent identifier and on every
    string of 24, 32 or 40 hex digits it returns. *)
Theorem C4_encode_length_check (id : option string) :
  (encode_id id = Raises AssertionError <->
   exists s, id = Some s /\ ~ In (String.length s) [24; 32; 40]%nat) /\
  ((id = None \/ exists s, id = Some s /\ valid_id s) ->
   exists t, encode_id id = Returns t).
Proof.
  split.
  - destruct id as [s|]; unfold encode_id.
    + destruct (existsb (Nat.eqb (String.length s)) [24; 32; 40]%nat) eqn:E; cbn [negb].
      * apply existsb_exists in E as (n & Hn & En). apply Nat.eqb_eq in En. subst n.
        split.
        -- intros H. exfalso. destruct (id_pieces s) as [[a b] c].
           destruct (int16_outcome a) as [[va Ea]|Ea]; rewrite Ea in H; [|discriminate].
           destruct (int16_outcome b) as [[vb Eb]|Eb]; rewrite Eb in H; [|discriminate].
           destruct (int16_outcome c) as [[vc Ec]|Ec]; rewrite Ec in H; discriminate.
        -- intros (s' & [= <-] & Hnot). contradiction.
      * split; [|reflexivity]. intros _. exists s. split; [reflexivity|].
        intros Hin. assert (existsb (Nat.eqb (String.length s)) [24; 32; 40]%nat = true) as E'.
        { apply existsb_exists. exists (String.length s). split; [exact Hin | apply Nat.eqb_refl]. }
        congruence.
    + split; [discriminate|]. intros (s & [=] & _).
  - intros [-> | (s & -> & Hv)].
    + eexists; reflexivity.
    + rewrite (encode_id_valid s Hv). destruct (id_pieces s) as [[a b] c]. eexists; reflexivity.
Qed.

Lemma C4_encode_length_check_witness :
  (exists t, encode_id (Some id32) = Returns t) /\
  encode_id (Some "abc") = Raises AssertionError.
Proof.
  split.
  - apply (proj2 (C4_encode_length_check (Some id32))). right. exists id32.
    split; [reflexivity | split; [simpl; tauto | reflexivity]].
  - apply (proj1 (C4_encode_length_check (Some "abc"))). exists "abc".
    split; [reflexivity | simpl; lia].
Defined.

(** Claim C10: the case of the hex digits does not matter to [encode_id]. *)
Theorem C10_encode_case_insensitive (id : string) :
  valid_id id ->
  encode_id (Some id) = encode_id (Some (upper id)) /\
  encode_id (Some (upper id)) = encode_id (Some (lower id)).
Proof.
  intros Hv.
  assert (Hmap : forall f, (forall c, digit_value (f c) = digit_value c) ->
                           encode_id (Some (PyStr.map f id)) = encode_id (Some id)).
  { intros f Hf.
    assert (Hv' : valid_id (PyStr.map f id)).
    { destruct Hv as [Hl Hh]. split; [now rewrite str_length_map|].
      now rewrite (forallb_hex_map f Hf). }
    rewrite (encode_id_valid _ Hv'), (encode_id_valid _ Hv), id_pieces_map, str_length_map.
    destruct (id_pieces id) as [[a b] c]. unfold hex_value.
    now rewrite !(hex_value_from_map f Hf). }
  unfold upper, lower.
  rewrite (Hmap upper_char digit_value_upper), (Hmap lower_char digit_value_lower).
  split; reflexivity.
Qed.

Lemma C10_encode_case_insensitive_witness :
  encode_id (Some id32) = encode_id (Some (upper id32)) /\
  encode_id (Some (upper id32)) = encode_id (Some (lower id32)).
Proof.
  apply (C10_encode_case_insensitive id32).
  split; [simpl; tauto | reflexivity].
Defined.

(** ** Decoding what was encoded *)


Lemma repeat_snoc (c : ascii) (n : nat) :
  PyStr.repeat c n ++ String c EmptyString = String c (PyStr.repeat c n).
Proof. induction n as [|n IH]; simpl; [reflexivity|]. now rewrite IH. Qed.

Lemma hex_fixed_0 (k : nat) : hex_fixed k 0 = PyStr.repeat "0" k.
Proof.
  induction k as [|k IH]; [reflexivity|].
  cbn [hex_fixed]. change (0 / 16) with 0. change (hex_char (0 mod 16)) with "0"%char.
  rewrite IH. apply repeat_snoc.
Qed.

Lemma hex_char_is_hex (d : Z) : 0 <= d < 16 -> is_hex_digit (hex_char d) = true.
Proof.
  intros H.
  assert (E : d = 0 \/ d = 1 \/ d = 2 \/ d = 3 \/ d = 4 \/ d = 5 \/ d = 6 \/ d = 7 \/
              d = 8 \/ d = 9 \/ d = 10 \/ d = 11 \/ d = 12 \/ d = 13 \/ d = 14 \/ d = 15) by lia.
  repeat (destruct E as [-> | E]; [reflexivity|]). now subst.
Qed.

Lemma hex_digits_are_hex (fuel : nat) (n : Z) :
  PyStr.forallb is_hex_digit (hex_digits fuel n) = true.
Proof.
  revert n; induction fuel as [|f IH]; intros n; [reflexivity|].
  cbn [hex_digits]. rewrite forallb_append. cbn [PyStr.forallb].
  rewrite hex_char_is_hex by (apply Z.mod_pos_bound; lia).
  destruct (n / 16 =? 0); [reflexivity | now rewrite IH].
Qed.

(** The digits [hex] prints are those of the fixed-width form without its
    leading zeros. *)
Lemma hex_fixed_digits (k : nat) :
  forall (fuel : nat) (n : Z),
    0 <= n < 16 ^ Z.of_nat k -> n < 16 ^ Z.of_nat fuel -> (1 <= k)%nat -> (1 <= fuel)%nat ->
    exists z : nat,
      hex_fixed k n = PyStr.repeat "0" z ++ hex_digits fuel n /\
      (z + String.length (hex_digits fuel n) = k)%nat.
Proof.
  induction k as [|k IH]; intros fuel n Hn Hf Hk Hfuel; [lia|].
  destruct fuel as [|f]; [lia|].
  cbn [hex_fixed hex_digits].
  destruct (Z.eqb_spec (n / 16) 0) as [E|E].
  - exists k. rewrite E, hex_fixed_0. split; [reflexivity|].
    simpl. lia.
  - assert (H16 : 16 <= n).
    { destruct (Z_lt_le_dec n 16) as [Hlt|]; [|assumption].
      exfalso; apply E, Z.div_small; lia. }
    rewrite Nat2Z.inj_succ, Z.pow_succ_r in Hn, Hf by lia.
    assert (Hk' : (1 <= k)%nat).
    { destruct k; [|lia]. simpl in Hn. lia. }
    assert (Hf' : (1 <= f)%nat).
    { destruct f; [|lia]. simpl in Hf. lia. }
    destruct (IH f (n / 16)) as (z & Hz & Hlen); try assumption.
    + split; [apply Z.div_pos; lia | apply Z.div_lt_upper_bound; lia].
    + apply Z.div_lt_upper_bound; lia.
    + exists z. rewrite Hz, append_assoc. split; [reflexivity|].
      rewrite length_append. simpl. lia.
Qed.

Lemma zfill_unsigned (w : Z) (s : string) :
  s <> EmptyString ->
  PyStr.forallb is_hex_digit s = true ->
  zfill w s = PyStr.repeat "0" (Z.to_nat (w - Z.of_nat (String.length s))) ++ s.
Proof.
  intros Hne Hhex. unfold zfill.
  destruct (Z.leb_spec (w - Z.of_nat (String.length s)) 0) as [Hle|Hgt].
  - replace (Z.to_nat _) with 0%nat by lia. reflexivity.
  - destruct s as [|c r]; [congruence|].
    simpl in Hhex. apply andb_prop in Hhex as [Hc _].
    destruct (hex_digit_not_sign c Hc) as [-> ->]. reflexivity.
Qed.

Lemma hex_digits_nonempty (fuel : nat) (n : Z) :
  (1 <= fuel)%nat -> hex_digits fuel n <> EmptyString.
Proof.
  destruct fuel as [|f]; [lia|]. intros _. cbn [hex_digits].
  destruct (if n / 16 =? 0 then _ else _); discriminate.
Qed.

Lemma drop_2_hex (n : Z) :
  0 <= n -> drop 2 (hex n) = hex_digits (S (Z.to_nat (Z.log2 n))) n.
Proof.
  intros Hn. unfold hex. destruct (Z.ltb_spec n 0) as [|_]; [lia|].
  now rewrite Z.abs_eq by assumption.
Qed.

Lemma hex_fuel_suffices (n : Z) :
  0 <= n -> n < 16 ^ Z.of_nat (S (Z.to_nat (Z.log2 n))).
Proof.
  intros Hn. rewrite Nat2Z.inj_succ, Z2Nat.id by apply Z.log2_nonneg.
  destruct (Z.eq_dec n 0) as [->|Hne]; [reflexivity|].
  assert (Hpos : 0 < n) by lia.
  pose proof (Z.log2_spec n Hpos) as [_ Hlt].
  eapply Z.lt_le_trans; [exact Hlt|].
  pose proof (Z.log2_nonneg n).
  apply Z.pow_le_mono_l. lia.
Qed.

(** Padding the printed digits of [n] to [k] places gives the fixed-width
    form, whenever [n] fits in [k] digits. *)
Lemma zfill_hex (k : nat) (n : Z) :
  (1 <= k)%nat -> 0 <= n < 16 ^ Z.of_nat k ->
  zfill (Z.of_nat k) (drop 2 (hex n)) = hex_fixed k n.
Proof.
  intros Hk Hn. rewrite drop_2_hex by lia.
  set (fuel := S (Z.to_nat (Z.log2 n))).
  destruct (hex_fixed_digits k fuel n Hn) as (z & Hz & Hlen);
    [apply hex_fuel_suffices; lia | assumption | unfold fuel; lia |].
  rewrite zfill_unsigned.
  - rewrite Hz. f_equal. f_equal. lia.
  - apply hex_digits_nonempty. unfold fuel; lia.
  - apply hex_digits_are_hex.
Qed.

Lemma hex_value_from_bound (s : string) :
  PyStr.forallb is_hex_digit s = true ->
  forall acc, 0 <= acc ->
    hex_value_from acc s = acc * 16 ^ Z.of_nat (String.length s) + hex_value s /\
    0 <= hex_value s < 16 ^ Z.of_nat (String.length s).
Proof.
  unfold hex_value.
  induction s as [|c r IH]; intros H acc Hacc.
  - simpl. lia.
  - simpl in H. apply andb_prop in H as [Hc Hr].
    pose proof (hex_digit_range c Hc) as Hd.
    cbn [hex_value_from String.length]. rewrite Nat2Z.inj_succ, Z.pow_succ_r by lia.
    destruct (IH Hr (acc * 16 + digit_value c)) as [E1 B1]; [lia|].
    destruct (IH Hr (0 * 16 + digit_value c)) as [E2 _]; [lia|].
    rewrite E1, E2. split; [ring|]. nia.
Qed.

Lemma hex_value_snoc (s : string) (c : ascii) :
  hex_value (s ++ String c EmptyString) = hex_value s * 16 + digit_value c.
Proof.
  unfold hex_value. generalize 0.
  induction s as [|d r IH]; intros acc; simpl; [reflexivity|]. apply IH.
Qed.

Lemma string_rev_ind (P : string -> Prop) :
  P EmptyString ->
  (forall s c, P s -> P (s ++ String c EmptyString)) ->
  forall s, P s.
Proof.
  intros H0 Hstep s.
  assert (G : forall n s, String.length s = n -> P s).
  { clear s. induction n as [|n IH]; intros s Hs.
    - destruct s; [assumption | discriminate].
    - assert (E : exists s' c, s = s' ++ String c EmptyString).
      { clear -Hs. revert n Hs. induction s as [|a r IHr]; intros n Hs; [discriminate|].
        destruct r as [|b r'].
        - exists EmptyString, a. reflexivity.
        - simpl in Hs. injection Hs as Hs.
          destruct n; [discriminate|].
          destruct (IHr n Hs) as (s' & c & E). exists (String a s'), c.
          simpl. now rewrite <- E. }
      destruct E as (s' & c & ->). apply Hstep, IH.
      rewrite length_append in Hs. simpl in Hs. lia. }
  now apply (G (String.length s)).
Qed.

Lemma hex_fixed_value (s : string) :
  PyStr.forallb is_hex_digit s = true ->
  hex_fixed (String.length s) (hex_value s) = lower s.
Proof.
  induction s as [|s c IH] using string_rev_ind; intros H; [reflexivity|].
  rewrite forallb_append in H. apply andb_prop in H as [Hs Hc].
  simpl in Hc. rewrite andb_true_r in Hc.
  pose proof (hex_digit_range c Hc) as Hd.
  rewrite length_append, hex_value_snoc. simpl String.length.
  replace (String.length s + 1)%nat with (S (String.length s)) by lia.
  cbn [hex_fixed].
  replace ((hex_value s * 16 + digit_value c) / 16) with (hex_value s)
    by (apply Z.div_unique with (r := digit_value c); lia).
  replace ((hex_value s * 16 + digit_value c) mod 16) with (digit_value c)
    by (apply Z.mod_unique with (q := hex_value s); lia).
  rewrite (IH Hs), hex_char_digit_value by assumption.
  unfold lower. now rewrite map_append.
Qed.

(** A run of hex digits survives printing and padding to its own width, in
    lower case. *)
Lemma zfill_hex_value (s : string) :
  s <> EmptyString -> PyStr.forallb is_hex_digit s = true ->
  zfill (Z.of_nat (String.length s)) (drop 2 (hex (hex_value s))) = lower s.
Proof.
  intros Hne H. rewrite zfill_hex.
  - now apply hex_fixed_value.
  - destruct s; [congruence | simpl; lia].
  - now apply (hex_value_from_bound s H 0).
Qed.

Lemma digit_value_hex_char (d : Z) : 0 <= d < 16 -> digit_value (hex_char d) = d.
Proof.
  intros H.
  assert (E : d = 0 \/ d = 1 \/ d = 2 \/ d = 3 \/ d = 4 \/ d = 5 \/ d = 6 \/ d = 7 \/
              d = 8 \/ d = 9 \/ d = 10 \/ d = 11 \/ d = 12 \/ d = 13 \/ d = 14 \/ d = 15) by lia.
  repeat (destruct E as [-> | E]; [reflexivity|]). now subst.
Qed.

(** [hex] prints all of a number: reading the digits back gives it again. *)
Lemma hex_digits_value (fuel : nat) :
  forall n, 0 <= n < 16 ^ Z.of_nat fuel -> (1 <= fuel)%nat ->
            hex_value (hex_digits fuel n) = n.
Proof.
  induction fuel as [|f IH]; intros n Hn Hf; [lia|].
  cbn [hex_digits]. rewrite hex_value_snoc.
  rewrite digit_value_hex_char by (apply Z.mod_pos_bound; lia).
  destruct (Z.eqb_spec (n / 16) 0) as [E|E].
  - change (hex_value EmptyString) with 0. pose proof (Z.div_mod n 16). lia.
  - rewrite Nat2Z.inj_succ, Z.pow_succ_r in Hn by lia.
    assert (Hf' : (1 <= f)%nat).
    { destruct f; [|lia]. exfalso. apply E, Z.div_small. simpl in Hn. lia. }
    rewrite IH; [pose proof (Z.div_mod n 16); lia | | assumption].
    split; [apply Z.div_pos; lia | apply Z.div_lt_upper_bound; lia].
Qed.

Lemma int16_of_hex (n : Z) : 0 <= n -> int16 (drop 2 (hex n)) = Returns n.
Proof.
  intros Hn. rewrite drop_2_hex by assumption.
  rewrite int16_hex.
  - f_equal. apply hex_digits_value; [|lia]. split; [assumption|].
    now apply hex_fuel_suffices.
  - apply hex_digits_nonempty. lia.
  - apply hex_digits_are_hex.
Qed.

Lemma lower_char_zero (c : ascii) : lower_char c = "0"%char -> c = "0"%char.
Proof. each_char c; intros H; try reflexivity; vm_compute in H; discriminate. Qed.

Lemma length_zfill_hex_le (w k : nat) (n : Z) :
  (1 <= k)%nat -> 0 <= n < 16 ^ Z.of_nat k ->
  (String.length (zfill (Z.of_nat w) (drop 2 (hex n))) <= Nat.max w k)%nat.
Proof.
  intros Hk Hn. rewrite drop_2_hex by lia.
  set (fuel := S (Z.to_nat (Z.log2 n))).
  destruct (hex_fixed_digits k fuel n Hn) as (z & _ & Hlen);
    [apply hex_fuel_suffices; lia | assumption | unfold fuel; lia |].
  rewrite zfill_unsigned;
    [| apply hex_digits_nonempty; unfold fuel; lia | apply hex_digits_are_hex].
  rewrite length_append, length_repeat. lia.
Qed.

Lemma pad_piece (w : Z) (s : string) :
  s <> EmptyString -> PyStr.forallb is_hex_digit s = true ->
  Z.of_nat (String.length s) = w ->
  zfill w (drop 2 (hex (hex_value s))) = lower s.
Proof. intros Hne H <-. now apply zfill_hex_value. Qed.

Lemma length_lower (s : string) : String.length (lower s) = String.length s.
Proof. apply str_length_map. Qed.

Lemma lower_pieces (a b c : string) : lower a ++ lower b ++ lower c = lower (a ++ b ++ c).
Proof. unfold lower. now rewrite !map_append. Qed.

(** The codec round trip on the lengths where it works: 24 and 40. *)
Lemma roundtrip_24_40 (id : string) :
  valid_id id -> String.length id <> 32%nat ->
  roundtrip (Some id) = Returns (lower id).
Proof.
  intros Hv H32. unfold roundtrip. rewrite (encode_id_valid id Hv).
  pose proof (id_pieces_hex id Hv) as Hp. destruct Hv as [Hlen Hhex].
  pose proof (id_pieces_spec id Hlen) as Hs.
  destruct (id_pieces id) as [[a b] c].
  destruct Hp as ((Na & Ha) & (Nb & Hb) & (Nc & Hc)). destruct Hs as [Hcat Hw].
  cbn [bind].
  assert (Hfin : String.length (lower (a ++ b ++ c)) = String.length id).
  { now rewrite length_lower, Hcat. }
  simpl in Hlen. destruct Hlen as [H|[H|[H|[]]]]; [| congruence |];
    rewrite <- H in Hw, Hfin |- *;
    [ change (piece_widths 24) with (8, 8, 8)%nat in Hw; change (Z.of_nat 24) with 24
    | change (piece_widths 40) with (14, 13, 13)%nat in Hw; change (Z.of_nat 40) with 40 ];
    injection Hw as La Lb Lc; unfold decode_id.
  - change (24 =? 40) with false. change (Z.quot 24 3) with 8. cbv iota.
    rewrite (pad_piece 8 a), (pad_piece 8 b), (pad_piece 8 c) by (assumption || lia).
    rewrite lower_pieces, Hfin. change (Z.of_nat 24 =? 24) with true. cbv iota.
    now rewrite Hcat.
  - change (40 =? 40) with true. cbv iota.
    rewrite (pad_piece 14 a), (pad_piece 13 b), (pad_piece 13 c) by (assumption || lia).
    rewrite lower_pieces, Hfin. change (Z.of_nat 40 =? 40) with true. cbv iota.
    now rewrite Hcat.
Qed.

(** On length 32 the last piece has 12 digits but is padded back to 10: the
    round trip works only when that piece does not begin with a zero. *)
Lemma roundtrip_32 (id : string) :
  valid_id id -> String.length id = 32%nat ->
  roundtrip (Some id)
  = if startswith "0" (drop 20 id) then Raises AssertionError
    else Returns (lower id).
Proof.
  intros Hv H32. unfold roundtrip. rewrite (encode_id_valid id Hv).
  pose proof (id_pieces_hex id Hv) as Hp. destruct Hv as [Hlen Hhex].
  pose proof (id_pieces_spec id Hlen) as Hs.
  assert (Hc20 : snd (id_pieces id) = drop 20 id).
  { unfold id_pieces. now rewrite H32. }
  destruct (id_pieces id) as [[a b] c]. cbn [snd] in Hc20. subst c.
  remember (drop 20 id) as c eqn:Edrop.
  destruct Hp as ((Na & Ha) & (Nb & Hb) & (Nc & Hc)). destruct Hs as [Hcat Hw].
  rewrite H32 in Hw |- *. change (piece_widths 32) with (10, 10, 12)%nat in Hw.
  injection Hw as La Lb Lc.
  cbn [bind]. change (Z.of_nat 32) with 32. unfold decode_id.
  change (32 =? 40) with false. change (Z.quot 32 3) with 10. cbv iota.
  rewrite (pad_piece 10 a), (pad_piece 10 b) by (assumption || lia).
  rewrite !length_append, !length_lower, La, Lb.
  clear Edrop. destruct c as [|x c']; [congruence|].
  cbn [startswith]. rewrite andb_true_r.
  destruct (Ascii.eqb_spec "0"%char x) as [<-|Hx].
  - (* the piece begins with a zero: at most 11 digits come back *)
    assert (Hv' : hex_value (String "0" c') = hex_value c') by reflexivity.
    simpl in Hc. simpl in Lc. injection Lc as Lc.
    pose proof (hex_value_from_bound c' Hc 0 ltac:(lia)) as [_ Hb'].
    rewrite Lc in Hb'.
    pose proof (length_zfill_hex_le 10 11 (hex_value c') ltac:(lia) Hb') as Hle.
    change (Z.of_nat 10) with 10 in Hle. rewrite Hv'.
    destruct (Z.eqb_spec
                (Z.of_nat (10 + (10 + String.length (zfill 10 (drop 2 (hex (hex_value c')))))))
                32) as [E|_]; [lia | reflexivity].
  - (* otherwise all 12 digits come back *)
    assert (Hfix : hex_fixed 12 (hex_value (String x c')) = lower (String x c')).
    { rewrite <- Lc. now apply hex_fixed_value. }
    pose proof (hex_value_from_bound _ Hc 0 ltac:(lia)) as [_ Hb'].
    rewrite Lc in Hb'.
    assert (Hz : zfill 10 (drop 2 (hex (hex_value (String x c'))))
                 = lower (String x c')).
    { rewrite drop_2_hex by lia.
      set (v := hex_value (String x c')) in *.
      set (fuel := S (Z.to_nat (Z.log2 v))).
      destruct (hex_fixed_digits 12 fuel v Hb') as (z & Hz & Hl);
        [apply hex_fuel_suffices; lia | lia | unfold fuel; lia |].
      rewrite zfill_unsigned;
        [| apply hex_digits_nonempty; unfold fuel; lia | apply hex_digits_are_hex].
      destruct z as [|z].
      - cbn [PyStr.repeat append Nat.add] in Hz, Hl.
        replace (Z.to_nat _) with 0%nat by lia.
        cbn [PyStr.repeat append]. now rewrite <- Hz.
      - exfalso. rewrite Hfix in Hz. cbn [PyStr.repeat append lower PyStr.map] in Hz.
        injection Hz as Hz _.
        apply lower_char_zero in Hz. congruence. }
    rewrite Hz, length_lower, Lc.
    change (Z.of_nat (10 + (10 + 12)) =? 32) with true. cbv iota.
    rewrite lower_pieces. now rewrite Hcat.
Qed.


(** Claim C1 at a failing input: 32 zeros are a valid identifier, encoding
    returns [(32, 0, 0, 0)], and decoding that fails its length assertion
    instead of giving the identifier back. *)
Theorem C1_roundtrip_fails_on_32_zeros :
  valid_id zeros32 /\
  encode_id (Some zeros32) = Returns (32, 0, 0, 0) /\
  decode_id 32 0 0 0 = Raises AssertionError /\
  roundtrip (Some zeros32) = Raises AssertionError.
Proof.
  split; [split; [simpl; tauto | reflexivity]|].
  repeat split.
Qed.

(** ** The chunk-size heuristic *)

Section ChunkSize.

Lemma ceil_div_pos (a b : Z) : 1 <= a -> 1 <= b -> 1 <= Np.ceil_div a b.
Proof.
  intros Ha Hb. unfold Np.ceil_div.
  assert (- a / b < 0) by (apply Z.div_lt_upper_bound; lia). lia.
Qed.

(** With a single record every chunk size from 2 on leaves remainder 1:
    the loop uses up any fuel. *)
Lemma grow_chunk_size_single_record (fuel : nat) :
  forall c, 2 <= c -> grow_chunk_size fuel 1 c = None.
Proof.
  induction fuel as [|fuel IH]; intros c Hc; [reflexivity|].
  cbn [grow_chunk_size].
  destruct (Z.eqb_spec c 0) as [|_]; [lia|].
  rewrite Z.mod_small by lia. cbn [Z.eqb Pos.eqb].
  apply IH. lia.
Qed.

(** What the loop guarantees when it ends. *)
Lemma grow_chunk_size_returns (fuel : nat) :
  forall n c c',
    grow_chunk_size fuel n c = Some (Returns c') ->
    c <= c' /\ c' <> 0 /\ n mod c' <> 1.
Proof.
  induction fuel as [|fuel IH]; intros n c c' H; [discriminate|].
  cbn [grow_chunk_size] in H.
  destruct (Z.eqb_spec c 0) as [|Hc0]; [discriminate|].
  destruct (Z.eqb_spec (n mod c) 1) as [E|E].
  - apply IH in H. lia.
  - injection H as <-. repeat split; [lia | assumption | assumption].
Qed.

(** From two records on the loop ends, at the latest when the chunk size
    reaches the number of records. *)
Lemma grow_chunk_size_terminates (n : Z) :
  2 <= n ->
  forall (fuel : nat) (c : Z),
    1 <= c -> (Z.to_nat (n - c) < fuel)%nat ->
    exists c', grow_chunk_size fuel n c = Some (Returns c') /\ c' <= Z.max c n.
Proof.
  intros Hn. induction fuel as [|fuel IH]; intros c Hc Hfuel; [lia|].
  cbn [grow_chunk_size].
  destruct (Z.eqb_spec c 0) as [|_]; [lia|].
  destruct (Z.eqb_spec (n mod c) 1) as [E|E].
  - assert (Hlt : c < n).
    { destruct (Z_lt_le_dec c n) as [|Hge]; [assumption|]. exfalso.
      destruct (Z.eq_dec c n) as [->|Hne].
      - rewrite Z.mod_same in E by lia. discriminate.
      - rewrite Z.mod_small in E by lia. lia. }
    destruct (IH (c - -1)) as (c' & Hc' & Hle); [lia | lia |].
    exists c'. split; [assumption | lia].
  - exists c. split; [reflexivity | lia].
Qed.

Lemma calc_chunksize_terminates (cpu_count n mn mx : Z) :
  2 <= n -> 0 <= cpu_count -> 1 <= mx ->
  exists fuel c w, calc_chunksize fuel cpu_count n mn mx = Some (Returns (c, w)).
Proof.
  intros Hn Hcpu Hmx. unfold calc_chunksize.
  set (c0 := Np.clip _ mn mx).
  assert (Hc0 : 1 <= c0).
  { unfold c0, Np.clip.
    assert (1 <= or_1 cpu_count) by (unfold or_1; destruct (Z.eqb_spec cpu_count 0); lia).
    pose proof (ceil_div_pos (Np.ceil_div n (or_1 cpu_count)) 5
                  (ceil_div_pos n (or_1 cpu_count) ltac:(lia) ltac:(lia)) ltac:(lia)).
    lia. }
  destruct (grow_chunk_size_terminates n Hn (S (Z.to_nat (n - c0))) c0 Hc0 ltac:(lia))
    as (c' & Hc' & _).
  exists (S (Z.to_nat (n - c0))). rewrite Hc'. eauto.
Qed.

End ChunkSize.

(** Claim C5 at a failing input: with one record and the default bounds the
    heuristic never returns, whatever the number of CPUs: the chunk size
    starts at 4, [1 % chunk_size] is 1 for every chunk size from 2 on, and
    the loop spends every amount of fuel. *)
Theorem C5_single_record_never_returns (fuel : nat) (cpu_count : Z) :
  calc_chunksize fuel cpu_count 1 4 2000 = None.
Proof.
  unfold calc_chunksize.
  rewrite grow_chunk_size_single_record; [reflexivity|].
  unfold Np.clip. lia.
Qed.

(** Outside the range of chunk sizes the heuristic is made for: with
    [min_chunksize = 10] above [max_chunksize = 5], [np.clip] gives the
    maximum, and 101 records on 8 CPUs get chunk size 6. *)
Example chunksize_min_above_max :
  calc_chunksize 10 8 101 10 5 = Some (Returns (6, 8)).
Proof. reflexivity. Qed.

(** Claim C6: whenever the heuristic returns for [num_dicts >= 1] on at
    least one CPU, the chunk size is at least [min_chunksize], the worker
    count is at least 1, and [num_dicts % chunk_size] is not 1, whether or
    not the chunk size has reached [max_chunksize].  The chunk sizes range
    over [min_chunksize <= max_chunksize] with [1 <= max_chunksize], and all
    sizes are ones a float64 holds exactly. *)
Theorem C6_result_bounds (fuel : nat) (cpu_count num_dicts min_chunksize max_chunksize : Z)
        (chunk_size worker_count : Z) :
  1 <= num_dicts -> 1 <= cpu_count ->
  min_chunksize <= max_chunksize -> 1 <= max_chunksize ->
  float_sized cpu_count num_dicts min_chunksize max_chunksize ->
  calc_chunksize fuel cpu_count num_dicts min_chunksize max_chunksize
  = Some (Returns (chunk_size, worker_count)) ->
  min_chunksize <= chunk_size /\ 1 <= worker_count /\ num_dicts mod chunk_size <> 1.
Proof.
  intros Hn Hcpu Hbounds Hmx _ H. unfold calc_chunksize in H.
  set (c0 := Np.clip _ min_chunksize max_chunksize) in H.
  assert (Hc0 : 1 <= c0 /\ min_chunksize <= c0).
  { unfold c0, Np.clip.
    assert (1 <= or_1 cpu_count) by (unfold or_1; destruct (Z.eqb_spec cpu_count 0); lia).
    pose proof (ceil_div_pos (Np.ceil_div num_dicts (or_1 cpu_count)) 5
                  (ceil_div_pos num_dicts (or_1 cpu_count) ltac:(lia) ltac:(lia)) ltac:(lia)).
    lia. }
  destruct (grow_chunk_size fuel num_dicts c0) as [[c|e]|] eqn:E; try discriminate.
  injection H as <- <-.
  apply grow_chunk_size_returns in E as (Hge & _ & Hmod).
  repeat split; [lia | | assumption].
  assert (0 <= Z.quot num_dicts c) by (apply Z.quot_pos; lia).
  unfold or_1. destruct (Z.eqb_spec (Z.min cpu_count (Z.quot num_dicts c)) 0); lia.
Qed.

Lemma C6_result_bounds_witness :
  calc_chunksize 10 8 100 4 2000 = Some (Returns (4, 8)) /\
  (4 <= 4 /\ 1 <= 8 /\ 100 mod 4 <> 1).
Proof.
  split; [reflexivity|].
  apply (C6_result_bounds 10 8 100 4 2000 4 8); try lia; try reflexivity.
  unfold float_sized, float_exact. lia.
Defined.

(** ** IOB merging: what holds for every input *)

Section IobInvariants.


Lemma set_end_start (h : heap) (s : loc) (e : Z) (l : loc) :
  span_start (set_end h s e l) = span_start (h l).
Proof. unfold set_end. now destruct (Nat.eqb l s). Qed.

Lemma set_end_other (h : heap) (s : loc) (e : Z) (l : loc) :
  l <> s -> set_end h s e l = h l.
Proof. unfold set_end. intros H. apply Nat.eqb_neq in H. now rewrite H. Qed.

Lemma set_end_same (h : heap) (s : loc) (e : Z) :
  set_end h s e s = {| span_start := span_start (h s); span_end := e |}.
Proof. unfold set_end. now rewrite Nat.eqb_refl. Qed.

Lemma end_of_tag_extends (st : locals) :
  bound st ->
  exists st', end_of_tag st = Returns st' /\ extends st st' [] [] /\
              open_tag st' = false /\
              simple_tags st' = all_tags st /\ merged_spans st' = all_spans st /\
              store st' = store st.
Proof.
  intros Hb. unfold end_of_tag, append_current, extends, all_tags, all_spans, bound.
  destruct (open_tag st) eqn:Eo.
  - destruct (Hb Eo) as (t & s & Et & Es). rewrite Et, Es. cbn.
    eexists. split; [reflexivity|]. cbn. rewrite !app_nil_r.
    repeat split; try reflexivity; discriminate.
  - eexists. split; [reflexivity|]. rewrite Eo, !app_nil_r.
    repeat split; try reflexivity; try assumption; discriminate.
Qed.

Lemma iob_step_extends (st : locals) (pred : string) (span : loc) :
  bound st ->
  exists st',
    iob_step st pred span = Returns st' /\
    extends st st'
            (if contains "B-" pred then [replace "B-" "" pred] else [])
            (if contains "B-" pred then [span] else []).
Proof.
  intros Hb. unfold iob_step.
  destruct (contains "B-" pred) eqn:EB; cbn [orb negb].
  - (* a new span starts *)
    unfold append_current, extends, all_tags, all_spans, bound.
    destruct (open_tag st) eqn:Eo.
    + destruct (Hb Eo) as (t & s & Et & Es). rewrite Et, Es. cbn.
      eexists. split; [reflexivity|]. cbn.
      repeat split; eauto.
    + eexists. split; [reflexivity|]. cbn. rewrite !app_nil_r.
      repeat split; eauto.
  - destruct (contains "I-" pred) eqn:EI; cbn [negb].
    + (* a continuation *)
      destruct (open_tag st) eqn:Eo.
      * destruct (Hb Eo) as (t & s & Et & Es). rewrite Et. cbn [read bind].
        destruct (String.eqb (replace "I-" "" pred) t).
        -- rewrite Es. cbn [read bind]. eexists. split; [reflexivity|].
           unfold extends, all_tags, all_spans, bound. cbn. rewrite Eo, Et, Es, !app_nil_r.
           repeat split; eauto.
           ++ intros l. apply set_end_start.
           ++ intros l Hl. apply set_end_other. intros ->. apply Hl.
              apply in_or_app. right. now left.
        -- destruct (end_of_tag_extends st Hb) as (st' & -> & He & _).
           exists st'. split; [reflexivity | exact He].
      * cbn [bind]. destruct (end_of_tag_extends st Hb) as (st' & -> & He & _).
        exists st'. split; [reflexivity | exact He].
    + (* no entity *)
      destruct (end_of_tag_extends st Hb) as (st' & -> & He & _).
      exists st'. split; [reflexivity | exact He].
Qed.

Lemma opening_cons (pred : string) (span : loc) (rest : list (string * loc)) :
  opening ((pred, span) :: rest)
  = ((if contains "B-" pred then [(pred, span)] else []) ++ opening rest)%list.
Proof. unfold opening. cbn. now destruct (contains "B-" pred). Qed.

Lemma iob_loop_extends (tokens : list (string * loc)) :
  forall st,
    bound st ->
    exists st',
      iob_loop st tokens = Returns st' /\
      extends st st'
              (List.map (fun token => replace "B-" "" (fst token)) (opening tokens))
              (List.map snd (opening tokens)).
Proof.
  induction tokens as [|[pred span] rest IH]; intros st Hb.
  - exists st. split; [reflexivity|]. unfold extends. cbn. rewrite !app_nil_r.
    repeat split; auto.
  - destruct (iob_step_extends st pred span Hb) as (st1 & E1 & B1 & T1 & S1 & F1 & O1).
    destruct (IH st1 B1) as (st2 & E2 & B2 & T2 & S2 & F2 & O2).
    exists st2. cbn [iob_loop]. rewrite E1. cbn [bind]. split; [exact E2|].
    rewrite opening_cons, !map_app.
    unfold extends. repeat split.
    + exact B2.
    + rewrite T2, T1, <- app_assoc. f_equal. f_equal. now destruct (contains "B-" pred).
    + rewrite S2, S1, <- app_assoc. f_equal. f_equal. now destruct (contains "B-" pred).
    + intros l. now rewrite F2, F1.
    + intros l Hl. rewrite O2 by assumption. apply O1.
      intros Hin. apply Hl. rewrite S2. apply in_or_app. now left.
Qed.

(** The call returns; its two lists are the entities of the opening
    tokens, in order; starts are kept, and only spans of opening tokens
    are touched. *)
Lemma convert_iob_to_simple_tags_spec (h : heap) (preds : list string) (spans : list loc) :
  exists tags locs h',
    convert_iob_to_simple_tags h preds spans = Returns (tags, locs, h') /\
    tags = List.map (fun token => replace "B-" "" (fst token)) (opening (combine preds spans)) /\
    locs = List.map snd (opening (combine preds spans)) /\
    (forall l, span_start (h' l) = span_start (h l)) /\
    (forall l, ~ In l locs -> h' l = h l).
Proof.
  assert (Hb : bound (iob_init h)) by (intros H; discriminate).
  destruct (iob_loop_extends (combine preds spans) _ Hb) as (st1 & E1 & B1 & T1 & S1 & F1 & O1).
  destruct (end_of_tag_extends st1 B1) as (st2 & E2 & _ & _ & T2 & S2 & H2).
  unfold convert_iob_to_simple_tags. rewrite E1. cbn [bind]. rewrite E2. cbn [bind].
  do 3 eexists. split; [reflexivity|].
  rewrite T2, S2, H2, T1, S1. cbn.
  repeat split; auto.
  intros l Hl. apply O1. now rewrite S1.
Qed.

Lemma combine_map_pair {A B C : Type} (f : A -> B) (g : A -> C) (l : list A) :
  combine (List.map f l) (List.map g l) = List.map (fun a => (f a, g a)) l.
Proof. induction l as [|a l IH]; [reflexivity|]. cbn [combine List.map]. now rewrite IH. Qed.

Lemma convert_iob_to_simple_tags_pairs (h : heap) (preds : list string) (spans : list loc) :
  exists tags locs h',
    convert_iob_to_simple_tags h preds spans = Returns (tags, locs, h') /\
    List.length tags = List.length locs /\
    combine tags locs
    = List.map (fun token => (replace "B-" "" (fst token), snd token))
               (opening (combine preds spans)).
Proof.
  destruct (convert_iob_to_simple_tags_spec h preds spans)
    as (tags & locs & h' & E & T & L & _).
  exists tags, locs, h'. subst tags locs. split; [exact E|].
  split; [now rewrite !List.length_map | apply combine_map_pair].
Qed.

End IobInvariants.


(** Claim C8, as stated, fails: merging [B-PER], [I-PER] overwrites the
    [end] of the first input span (1 becomes 5). *)
Lemma C8_input_span_modified :
  exists tags locs h',
    convert_iob_to_simple_tags heap2 ["B-PER"; "I-PER"] [0; 1]%nat = Returns (tags, locs, h') /\
    span_end (heap2 0%nat) = 1 /\ span_end (h' 0%nat) = 5 /\ h' 0%nat <> heap2 0%nat.
Proof.
  do 3 eexists. split; [reflexivity|]. repeat split. discriminate.
Qed.

(** Claim C8, amended: the merge keeps its tag sequence (it is never
    written) and the [start] of every span; the one effect on the caller's
    data is on the [end] field of the spans of opening tokens, the very
    objects it returns: every other span is unchanged. *)
Theorem C8_merge_frame (h : heap) (preds : list string) (spans : list loc) :
  exists tags locs h',
    convert_iob_to_simple_tags h preds spans = Returns (tags, locs, h') /\
    (forall l, span_start (h' l) = span_start (h l)) /\
    (forall l, ~ In l (List.map snd (opening (combine preds spans))) -> h' l = h l).
Proof.
  destruct (convert_iob_to_simple_tags_spec h preds spans) as (tags & locs & h' & E & _ & L & F & O).
  exists tags, locs, h'. subst locs. auto.
Qed.

(** Claim C9: the call returns two lists of equal length, and the i-th tag
    and the i-th span come from the same token, the i-th opening token. *)
Theorem C9_tags_and_spans_paired (h : heap) (preds : list string) (spans : list loc) :
  exists tags locs h',
    convert_iob_to_simple_tags h preds spans = Returns (tags, locs, h') /\
    List.length tags = List.length locs /\
    combine tags locs
    = List.map (fun token => (replace "B-" "" (fst token), snd token))
               (opening (combine preds spans)).
Proof. apply convert_iob_to_simple_tags_pairs. Qed.

(** ** IOB merging against the two-state machine *)

Section IobRefinement.

Lemma replace_no_match (old new s : string) :
  contains old s = false -> replace_from old new 0 s = s.
Proof.
  induction s as [|c r IH]; intros H; [reflexivity|].
  cbn [contains] in H. apply orb_false_iff in H as [Hp Hr].
  cbn [replace_from]. rewrite Hp. now rewrite IH.
Qed.

(** How the code and the machine read the three kinds of label. *)
Lemma read_label_O :
  contains "B-" "O" = false /\ contains "I-" "O" = false /\ parse_tag "O" = O_tag.
Proof. repeat split. Qed.

Lemma read_label_B (X : string) :
  clean_type X ->
  contains "B-" ("B-" ++ X) = true /\
  replace "B-" "" ("B-" ++ X) = X /\
  parse_tag ("B-" ++ X) = B_tag X.
Proof.
  intros [HB HI]. split; [|split].
  - reflexivity.
  - unfold replace. cbn.
    destruct X as [|c r]; [reflexivity|]. now apply replace_no_match.
  - reflexivity.
Qed.

Lemma read_label_I (X : string) :
  clean_type X ->
  contains "B-" ("I-" ++ X) = false /\
  contains "I-" ("I-" ++ X) = true /\
  replace "I-" "" ("I-" ++ X) = X /\
  parse_tag ("I-" ++ X) = I_tag X.
Proof.
  intros [HB HI]. split; [|split; [|split]].
  - cbn. exact HB.
  - reflexivity.
  - unfold replace. cbn.
    destruct X as [|c r]; [reflexivity|]. now apply replace_no_match.
  - reflexivity.
Qed.


Lemma deref_ext (h h' : heap) (ls : list loc) :
  (forall l, In l ls -> h' l = h l) -> deref h' ls = deref h ls.
Proof. intros H. apply map_ext_in. exact H. Qed.

Lemma token_values_ext (h h' : heap) (tokens : list (string * loc)) :
  (forall l, In l (List.map snd tokens) -> h' l = h l) ->
  token_values h' tokens = token_values h tokens.
Proof.
  intros H. apply map_ext_in. intros tok Hin. f_equal. apply H.
  now apply in_map.
Qed.

Lemma end_of_tag_sim (st : locals) (ms : merge_state) :
  sim st ms ->
  exists st',
    end_of_tag st = Returns st' /\
    open_tag st' = false /\ store st' = store st /\
    simple_tags st' = (simple_tags st ++ List.map fst (emit_open ms))%list /\
    merged_spans st' = (merged_spans st ++
                        match ms with OPEN _ _ => match cur_span st with Some s => [s] | None => [] end
                                 | CLOSED => [] end)%list /\
    deref (store st) (merged_spans st')
    = (deref (store st) (merged_spans st) ++ List.map snd (emit_open ms))%list.
Proof.
  intros Hs. unfold end_of_tag, append_current.
  destruct Hs as [Eo | t s Eo Et Es Hs]; rewrite Eo.
  - exists st. cbn. rewrite !app_nil_r. repeat split; auto.
  - rewrite Et, Es. cbn. eexists. split; [reflexivity|]. cbn.
    unfold deref. rewrite map_app. repeat split; auto.
Qed.

Lemma fresh_tail (st st' : locals) (l : loc) (ls : list loc) :
  fresh st (l :: ls) ->
  (forall l', In l' (merged_spans st') ->
              In l' (merged_spans st) \/ (open_tag st = true /\ cur_span st = Some l')) ->
  (open_tag st' = true ->
   cur_span st' = Some l \/ (open_tag st = true /\ cur_span st' = cur_span st)) ->
  fresh st' ls.
Proof.
  intros [Hnd Hf] Hm Hc. inversion Hnd as [|? ? Hnotin Hnd']; subst.
  split; [assumption|]. intros l' Hl'.
  destruct (Hf l' (or_intror Hl')) as [Hm' Hc']. split.
  - intros Hin. destruct (Hm l' Hin) as [|[Eo Es]]; [contradiction|]. now apply Hc'.
  - intros Eo'. destruct (Hc Eo') as [E|[Eo E]].
    + rewrite E. intros [= ->]. contradiction.
    + rewrite E. now apply Hc'.
Qed.

(** The loop and the final [if open_tag] emit what the machine emits. *)
Lemma iob_loop_refines (tokens : list (string * loc)) :
  forall (st : locals) (ms : merge_state),
    Forall (fun token => iob_label (fst token)) tokens ->
    sim st ms ->
    fresh st (List.map snd tokens) ->
    exists st1 st',
      iob_loop st tokens = Returns st1 /\
      end_of_tag st1 = Returns st' /\
      simple_tags st'
      = (simple_tags st ++ List.map fst (spec_run ms (token_values (store st) tokens)))%list /\
      deref (store st') (merged_spans st')
      = (deref (store st) (merged_spans st)
         ++ List.map snd (spec_run ms (token_values (store st) tokens)))%list.
Proof.
  induction tokens as [|[pred l] rest IH]; intros st ms Hlab Hsim Hfresh.
  - destruct (end_of_tag_sim st ms Hsim) as (st' & E & _ & Hst & T & _ & D).
    exists st, st'. cbn [iob_loop spec_run token_values List.map].
    rewrite Hst. auto.
  - inversion Hlab as [|? ? Hl Hrest]; subst. cbn [fst] in Hl.
    cbn [List.map snd] in Hfresh.
    cbn [iob_loop token_values List.map spec_run fst snd].
    fold (token_values (store st) rest).
    inversion Hl as [EO | X HX EX | X HX EX]; subst pred.
    + (* O *)
      destruct read_label_O as (CB & CI & P).
      unfold iob_step, spec_step. rewrite CB, CI, P. cbn [orb negb].
      destruct (end_of_tag_sim st ms Hsim) as (st1 & E1 & O1 & H1 & T1 & M1 & D1).
      rewrite E1. cbn [bind].
      destruct (IH st1 CLOSED Hrest (sim_closed st1 O1)) as (st2 & st' & E2 & E' & T' & D').
      { apply (fresh_tail st st1 l); [assumption | | rewrite O1; discriminate].
        intros l' Hin. rewrite M1 in Hin. apply in_app_or in Hin as [|Hin]; [now left|].
        destruct Hsim as [|t s Eo Et Es Hs]; [contradiction|].
        rewrite Es in Hin. destruct Hin as [<-|[]]. now right. }
      exists st2, st'. split; [exact E2|]. split; [exact E'|].
      rewrite T', D', H1, T1, D1, !map_app, !app_assoc. auto.
    + (* B-X *)
      destruct (read_label_B X HX) as (CB & R & P).
      unfold iob_step, spec_step. rewrite CB, R, P. cbn [orb negb].
      set (st0 := if open_tag st then append_current st else Returns st).
      assert (H0 : exists st0',
                 st0 = Returns st0' /\ store st0' = store st /\
                 simple_tags st0' = (simple_tags st ++ List.map fst (emit_open ms))%list /\
                 merged_spans st0'
                 = (merged_spans st ++
                    match ms with OPEN _ _ => match cur_span st with Some s => [s] | None => [] end
                             | CLOSED => [] end)%list /\
                 deref (store st) (merged_spans st0')
                 = (deref (store st) (merged_spans st) ++ List.map snd (emit_open ms))%list).
      { unfold st0, append_current. destruct Hsim as [Eo | t s Eo Et Es Hs]; rewrite Eo.
        - exists st. cbn. rewrite !app_nil_r. repeat split; auto.
        - rewrite Et, Es. cbn. eexists. split; [reflexivity|]. cbn.
          unfold deref. rewrite map_app. repeat split; auto. }
      destruct H0 as (st0' & -> & H0 & T0 & M0 & D0). cbn [bind].
      set (st1 := {| simple_tags := simple_tags st0'; merged_spans := merged_spans st0';
                     open_tag := true; cur_tag := Some X; cur_span := Some l;
                     store := store st0' |}).
      assert (Hnew : ~ In l (merged_spans st1)).
      { cbn. rewrite M0. intros Hin.
        destruct Hfresh as [_ Hf]. destruct (Hf l (or_introl eq_refl)) as [Hm Hc].
        apply in_app_or in Hin as [|Hin]; [contradiction|].
        destruct Hsim as [|t s Eo Et Es Hs]; [contradiction|].
        rewrite Es in Hin. destruct Hin as [<-|[]]. now apply Hc. }
      pose proof (sim_open st1 X l eq_refl eq_refl eq_refl Hnew) as Hsim1.
      destruct (IH st1 _ Hrest Hsim1) as (st2 & st' & E2 & E' & T' & D').
      { apply (fresh_tail st st1 l); [assumption | | intros _; now left].
        intros l' Hin. cbn in Hin. rewrite M0 in Hin.
        apply in_app_or in Hin as [|Hin]; [now left|].
        destruct Hsim as [|t s Eo Et Es Hs]; [contradiction|].
        rewrite Es in Hin. destruct Hin as [<-|[]]. now right. }
      exists st2, st'. split; [exact E2|]. split; [exact E'|].
      rewrite T', D'. cbn [store simple_tags merged_spans st1]. rewrite H0, T0, D0.
      rewrite !map_app, !app_assoc. auto.
    + (* I-X *)
      destruct (read_label_I X HX) as (CB & CI & R & P).
      unfold iob_step, spec_step. rewrite CB, CI, R, P. cbn [orb negb].
      destruct Hsim as [Eo | t s Eo Et Es Hs].
      * (* closed: the token is dropped *)
        rewrite Eo. cbn [bind].
        pose proof (sim_closed st Eo) as Hsim.
        destruct (end_of_tag_sim st CLOSED Hsim) as (st1 & E1 & O1 & H1 & T1 & M1 & D1).
        rewrite E1. cbn [bind].
        destruct (IH st1 CLOSED Hrest (sim_closed st1 O1)) as (st2 & st' & E2 & E' & T' & D').
        { apply (fresh_tail st st1 l); [assumption | | rewrite O1; discriminate].
          intros l' Hin. rewrite M1, app_nil_r in Hin. now left. }
        exists st2, st'. split; [exact E2|]. split; [exact E'|].
        rewrite T', D', H1, T1, D1. cbn. now rewrite !app_nil_r.
      * rewrite Eo, Et. cbn [read bind].
        destruct (String.eqb X t) eqn:Ex.
        -- (* same type: the open span is extended *)
           rewrite Es. cbn [read bind].
           match goal with |- context [iob_loop ?x rest] => set (st1 := x) end.
           assert (Hsim1 : sim st1 (OPEN t {| span_start := span_start (store st s);
                                               span_end := span_end (store st l) |})).
           { rewrite <- (set_end_same (store st) s (span_end (store st l))).
             change (set_end (store st) s (span_end (store st l))) with (store st1).
             now apply sim_open. }
           assert (Hs_rest : forall l', In l' (List.map snd rest) -> l' <> s).
           { intros l' Hin ->. destruct Hfresh as [_ Hf].
             destruct (Hf s (or_intror Hin)) as [_ Hc]. now apply Hc. }
           destruct (IH st1 _ Hrest Hsim1) as (st2 & st' & E2 & E' & T' & D').
           { apply (fresh_tail st st1 l); [assumption | now left |].
             intros _. right. split; [assumption | now rewrite Es]. }
           exists st2, st'. split; [exact E2|]. split; [exact E'|].
           rewrite T', D'. cbn [store simple_tags merged_spans st1 app].
           rewrite (token_values_ext (store st))
             by (intros l' Hin; apply set_end_other; now apply Hs_rest).
           rewrite (deref_ext (store st))
             by (intros l' Hin; apply set_end_other; intros ->; contradiction).
           auto.
        -- (* another type: the open entity ends *)
           pose proof (sim_open st t s Eo Et Es Hs) as Hsim.
           destruct (end_of_tag_sim st _ Hsim) as (st1 & E1 & O1 & H1 & T1 & M1 & D1).
           rewrite E1. cbn [bind].
           destruct (IH st1 CLOSED Hrest (sim_closed st1 O1)) as (st2 & st' & E2 & E' & T' & D').
           { apply (fresh_tail st st1 l); [assumption | | rewrite O1; discriminate].
             intros l' Hin. rewrite M1, Es in Hin.
             apply in_app_or in Hin as [|[<-|[]]]; [now left | now right]. }
           exists st2, st'. split; [exact E2|]. split; [exact E'|].
           rewrite T', D', H1, T1, D1, !map_app, !app_assoc. auto.
Qed.

End IobRefinement.

Lemma combine_deref (h : heap) (tags : list string) (spans : list loc) :
  combine tags (deref h spans) = token_values h (combine tags spans).
Proof.
  revert spans; induction tags as [|t tags IH]; intros [|l spans]; try reflexivity.
  cbn. f_equal. apply IH.
Qed.

Lemma combine_labels (tags : list string) (spans : list loc) :
  Forall iob_label tags ->
  Forall (fun token => iob_label (fst token)) (combine tags spans).
Proof.
  intros H; revert spans; induction H as [|t tags Ht _ IH]; intros [|l spans];
    cbn [combine]; constructor; auto.
Qed.

Lemma map_snd_combine_eq (tags : list string) (spans : list loc) :
  List.length tags = List.length spans -> List.map snd (combine tags spans) = spans.
Proof.
  revert spans; induction tags as [|t tags IH]; intros [|l spans] H; try discriminate;
    [reflexivity|].
  cbn. f_equal. apply IH. now injection H.
Qed.

Lemma opening_openers (tokens : list (string * loc)) :
  Forall (fun token => iob_label (fst token)) tokens ->
  List.map (fun token => (replace "B-" "" (fst token), snd token)) (opening tokens)
  = openers tokens.
Proof.
  induction 1 as [|[pred l] rest Hl _ IH]; [reflexivity|].
  rewrite opening_cons, map_app, IH. cbn [openers flat_map fst snd] in Hl |- *. f_equal.
  inversion Hl as [EO | X HX EX | X HX EX]; subst pred.
  - reflexivity.
  - destruct (read_label_B X HX) as (CB & R & P). rewrite CB, P.
    cbn [List.map fst snd]. now rewrite R.
  - destruct (read_label_I X HX) as (CB & _ & _ & P). now rewrite CB, P.
Qed.


(** Claim C7 at a failing input: the code looks for ["B-"] anywhere in a
    tag and deletes every occurrence, where it means the prefix, so for the
    tag [B-JOB-TITLE] the type comes out as [JOTITLE]; the machine of the
    specification emits [JOB-TITLE]. *)
Lemma C7_hyphenated_type_mangled :
  exists out_tags out_locs h',
    convert_iob_to_simple_tags heap1 ["B-JOB-TITLE"] [0%nat] = Returns (out_tags, out_locs, h') /\
    out_tags = ["JOTITLE"] /\
    merge_iob_spans ["B-JOB-TITLE"] (deref heap1 [0%nat]) = (["JOB-TITLE"], [mk 0 1]) /\
    (out_tags, deref h' out_locs) <> merge_iob_spans ["B-JOB-TITLE"] (deref heap1 [0%nat]).
Proof.
  do 3 eexists. split; [reflexivity|]. split; [reflexivity|]. split; [reflexivity|].
  discriminate.
Qed.

(** Where the substring tests read the tags as the prefix tests would,
    the code is the machine: for tags [O], [B-X], [I-X] whose type names [X]
    contain neither ["B-"] nor ["I-"], and as many spans, all distinct
    objects, the call returns what the two-state machine of the
    specification emits on the tags and the values of the spans (a [B-]
    ends an open entity and opens one on its span; a matching [I-] moves the
    end of the open span; a mismatched [I-] ends it without opening; an [I-]
    with nothing open is dropped; [O] ends an open entity; what is still
    open at the end is emitted).  The entities come in the order of their
    opening tokens: they are the [B-] tokens, each with its own span
    object. *)
Theorem merge_refines_machine (h : heap) (tags : list string) (spans : list loc) :
  Forall iob_label tags ->
  List.length tags = List.length spans ->
  NoDup spans ->
  exists out_tags out_locs h',
    convert_iob_to_simple_tags h tags spans = Returns (out_tags, out_locs, h') /\
    (out_tags, deref h' out_locs) = merge_iob_spans tags (deref h spans) /\
    combine out_tags out_locs = openers (combine tags spans).
Proof.
  intros Hlab Hlen Hnd.
  pose proof (combine_labels tags spans Hlab) as Hlab'.
  destruct (iob_loop_refines (combine tags spans) (iob_init h) CLOSED Hlab')
    as (st1 & st' & E1 & E' & T' & D').
  { now apply sim_closed. }
  { rewrite map_snd_combine_eq by assumption. split; [assumption|].
    intros l _. split; [intros [] | discriminate]. }
  destruct (convert_iob_to_simple_tags_pairs h tags spans) as (out_tags & out_locs & h' & E & _ & Hpair).
  exists out_tags, out_locs, h'. split; [exact E|].
  unfold convert_iob_to_simple_tags in E. rewrite E1 in E. cbn [bind] in E.
  rewrite E' in E. cbn [bind] in E. injection E as <- <- <-.
  split.
  - unfold merge_iob_spans. rewrite combine_deref, T', D'. reflexivity.
  - rewrite Hpair. now apply opening_openers.
Qed.

Lemma merge_refines_machine_witness :
  exists out_tags out_locs h',
    convert_iob_to_simple_tags
      (heap_of [mk 0 1; mk 2 5; mk 6 9; mk 10 11; mk 12 15])
      ["O"; "B-PER"; "I-PER"; "O"; "B-LOC"] [0; 1; 2; 3; 4]%nat
    = Returns (out_tags, out_locs, h') /\
    (out_tags, deref h' out_locs) = (["PER"; "LOC"], [mk 2 9; mk 12 15]).
Proof.
  destruct (merge_refines_machine
              (heap_of [mk 0 1; mk 2 5; mk 6 9; mk 10 11; mk 12 15])
              ["O"; "B-PER"; "I-PER"; "O"; "B-LOC"] [0; 1; 2; 3; 4]%nat)
    as (out_tags & out_locs & h' & E & R & _).
  - apply Forall_cons; [apply label_O|].
    apply Forall_cons; [apply (label_B "PER"); split; reflexivity|].
    apply Forall_cons; [apply (label_I "PER"); split; reflexivity|].
    apply Forall_cons; [apply label_O|].
    apply Forall_cons; [apply (label_B "LOC"); split; reflexivity|].
    apply Forall_nil.
  - reflexivity.
  - repeat constructor; simpl; lia.
  - exists out_tags, out_locs, h'. split; [exact E|]. rewrite R. reflexivity.
Defined.

(** ** More on the codec *)


Lemma valid_id24 : valid_id id24.
Proof. split; [simpl; tauto | reflexivity]. Qed.

Lemma valid_id32 : valid_id id32.
Proof. split; [simpl; tauto | reflexivity]. Qed.

Lemma roundtrip_24_40_witness :
  roundtrip (Some id24) = Returns (lower id24).
Proof.
  apply (roundtrip_24_40 id24); [exact valid_id24 | simpl; lia].
Defined.

Lemma roundtrip_32_witness :
  roundtrip (Some id32) = Returns (lower id32).
Proof.
  exact (roundtrip_32 id32 valid_id32 eq_refl).
Defined.

Lemma encode_id_lower (id : string) :
  valid_id id -> encode_id (Some (lower id)) = encode_id (Some id).
Proof.
  intros Hv.
  assert (Hv' : valid_id (lower id)).
  { destruct Hv as [Hl Hh]. split; [now rewrite length_lower|].
    unfold lower. now rewrite (forallb_hex_map lower_char digit_value_lower). }
  rewrite (encode_id_valid _ Hv'), (encode_id_valid _ Hv).
  unfold lower. rewrite id_pieces_map, str_length_map.
  destruct (id_pieces id) as [[a b] c]. unfold hex_value.
  now rewrite !(hex_value_from_map lower_char digit_value_lower).
Qed.

Lemma lower_of_value (s t : string) :
  PyStr.forallb is_hex_digit s = true -> PyStr.forallb is_hex_digit t = true ->
  String.length s = String.length t -> hex_value s = hex_value t ->
  lower s = lower t.
Proof.
  intros Hs Ht Hl Hv.
  rewrite <- (hex_fixed_value s Hs), <- (hex_fixed_value t Ht). now rewrite Hl, Hv.
Qed.

(** Two valid identifiers have the same encoding exactly when they are the
    same up to the case of their hex digits: nothing but the case is lost,
    on all three lengths. *)
Theorem encode_id_injective (id1 id2 : string) :
  valid_id id1 -> valid_id id2 ->
  (encode_id (Some id1) = encode_id (Some id2) <-> lower id1 = lower id2).
Proof.
  intros Hv1 Hv2. split.
  - intros E. rewrite (encode_id_valid _ Hv1), (encode_id_valid _ Hv2) in E.
    pose proof (id_pieces_hex id1 Hv1) as Hp1. pose proof (id_pieces_hex id2 Hv2) as Hp2.
    pose proof (id_pieces_spec id1 (proj1 Hv1)) as Hs1.
    pose proof (id_pieces_spec id2 (proj1 Hv2)) as Hs2.
    destruct (id_pieces id1) as [[a1 b1] c1]. destruct (id_pieces id2) as [[a2 b2] c2].
    injection E as El Ea Eb Ec. apply Nat2Z.inj in El.
    destruct Hs1 as [C1 W1]. destruct Hs2 as [C2 W2]. rewrite El, <- W2 in W1.
    injection W1 as La Lb Lc.
    destruct Hp1 as ((_ & A1) & (_ & B1) & (_ & K1)).
    destruct Hp2 as ((_ & A2) & (_ & B2) & (_ & K2)).
    rewrite <- C1, <- C2, <- !lower_pieces.
    now rewrite (lower_of_value a1 a2), (lower_of_value b1 b2), (lower_of_value c1 c2).
  - intros E. rewrite <- (encode_id_lower id1 Hv1), <- (encode_id_lower id2 Hv2).
    now rewrite E.
Qed.

Lemma encode_id_injective_witness :
  encode_id (Some id32) = encode_id (Some (upper id32)).
Proof.
  apply (encode_id_injective id32 (upper id32)); [exact valid_id32 | | reflexivity].
  split; [simpl; tauto | reflexivity].
Defined.

(** Every integer of the encoding of a valid identifier is non-negative and
    below [2 ^ 56], so it fits a signed 64-bit integer; the first component
    is the length of the identifier. *)
Theorem encode_id_fits_int64 (id : string) :
  valid_id id ->
  exists int_1 int_2 int_3,
    encode_id (Some id) = Returns (Z.of_nat (String.length id), int_1, int_2, int_3) /\
    0 <= int_1 < 2 ^ 56 /\ 0 <= int_2 < 2 ^ 56 /\ 0 <= int_3 < 2 ^ 56.
Proof.
  intros Hv. rewrite (encode_id_valid id Hv).
  pose proof (id_pieces_hex id Hv) as Hp.
  pose proof (id_pieces_spec id (proj1 Hv)) as Hs.
  destruct (id_pieces id) as [[a b] c].
  destruct Hp as ((_ & Ha) & (_ & Hb) & (_ & Hc)). destruct Hs as [_ Hw].
  assert (Hle : (String.length a <= 14 /\ String.length b <= 14 /\ String.length c <= 14)%nat).
  { destruct Hv as [Hlen _]. simpl in Hlen.
    destruct Hlen as [H|[H|[H|[]]]]; rewrite <- H in Hw;
      change (piece_widths 24) with (8, 8, 8)%nat in Hw;
      change (piece_widths 32) with (10, 10, 12)%nat in Hw;
      change (piece_widths 40) with (14, 13, 13)%nat in Hw;
      injection Hw as -> -> ->; lia. }
  assert (Hpow : forall k, (k <= 14)%nat -> 16 ^ Z.of_nat k <= 2 ^ 56).
  { intros k Hk. change (2 ^ 56) with (16 ^ 14). apply Z.pow_le_mono_r; lia. }
  destruct Hle as (La & Lb & Lc).
  destruct (hex_value_from_bound a Ha 0 ltac:(lia)) as [_ Ba].
  destruct (hex_value_from_bound b Hb 0 ltac:(lia)) as [_ Bb].
  destruct (hex_value_from_bound c Hc 0 ltac:(lia)) as [_ Bc].
  pose proof (Hpow _ La). pose proof (Hpow _ Lb). pose proof (Hpow _ Lc).
  exists (hex_value a), (hex_value b), (hex_value c).
  split; [reflexivity|]. lia.
Qed.

Lemma encode_id_fits_int64_witness :
  exists int_1 int_2 int_3,
    encode_id (Some id32) = Returns (32, int_1, int_2, int_3) /\
    0 <= int_1 < 2 ^ 56 /\ 0 <= int_2 < 2 ^ 56 /\ 0 <= int_3 < 2 ^ 56.
Proof. exact (encode_id_fits_int64 id32 valid_id32). Defined.

Lemma length_hex_fixed (k : nat) : forall n, String.length (hex_fixed k n) = k.
Proof.
  induction k as [|k IH]; intros n; [reflexivity|].
  cbn [hex_fixed]. rewrite length_append, IH. simpl. lia.
Qed.

Lemma hex_fixed_is_hex (k : nat) :
  forall n, PyStr.forallb is_hex_digit (hex_fixed k n) = true.
Proof.
  induction k as [|k IH]; intros n; [reflexivity|].
  cbn [hex_fixed]. rewrite forallb_append, IH. cbn [PyStr.forallb andb].
  rewrite hex_char_is_hex by (apply Z.mod_pos_bound; lia). reflexivity.
Qed.

Lemma hex_value_hex_fixed (k : nat) :
  forall n, 0 <= n < 16 ^ Z.of_nat k -> hex_value (hex_fixed k n) = n.
Proof.
  induction k as [|k IH]; intros n Hn.
  - simpl in Hn. cbn. lia.
  - cbn [hex_fixed]. rewrite hex_value_snoc.
    rewrite digit_value_hex_char by (apply Z.mod_pos_bound; lia).
    rewrite Nat2Z.inj_succ, Z.pow_succ_r in Hn by lia.
    rewrite IH; [pose proof (Z.div_mod n 16); lia|].
    split; [apply Z.div_pos; lia | apply Z.div_lt_upper_bound; lia].
Qed.

Lemma lower_hex_char (d : Z) : 0 <= d < 16 -> lower_char (hex_char d) = hex_char d.
Proof.
  intros H.
  assert (E : d = 0 \/ d = 1 \/ d = 2 \/ d = 3 \/ d = 4 \/ d = 5 \/ d = 6 \/ d = 7 \/
              d = 8 \/ d = 9 \/ d = 10 \/ d = 11 \/ d = 12 \/ d = 13 \/ d = 14 \/ d = 15) by lia.
  repeat (destruct E as [-> | E]; [reflexivity|]). now subst.
Qed.

Lemma lower_hex_fixed (k : nat) : forall n, lower (hex_fixed k n) = hex_fixed k n.
Proof.
  induction k as [|k IH]; intros n; [reflexivity|].
  cbn [hex_fixed]. unfold lower in *. rewrite map_append, IH. cbn [PyStr.map].
  now rewrite lower_hex_char by (apply Z.mod_pos_bound; lia).
Qed.

(** The padded field has at least the asked width, and exactly that width
    when the number fits it. *)
Lemma length_zfill_hex (w : nat) (n : Z) :
  (1 <= w)%nat -> 0 <= n ->
  (w <= String.length (zfill (Z.of_nat w) (drop 2 (hex n))))%nat /\
  (String.length (zfill (Z.of_nat w) (drop 2 (hex n))) = w <-> n < 16 ^ Z.of_nat w).
Proof.
  intros Hw Hn. rewrite drop_2_hex by lia.
  set (fuel := S (Z.to_nat (Z.log2 n))).
  assert (Hfuel : n < 16 ^ Z.of_nat fuel) by (apply hex_fuel_suffices; lia).
  rewrite zfill_unsigned;
    [| apply hex_digits_nonempty; unfold fuel; lia | apply hex_digits_are_hex].
  rewrite length_append, length_repeat.
  split; [lia|]. split.
  - intros Hlen.
    assert (Hval : hex_value (hex_digits fuel n) = n).
    { apply hex_digits_value; [split; assumption | unfold fuel; lia]. }
    destruct (hex_value_from_bound _ (hex_digits_are_hex fuel n) 0 ltac:(lia)) as [_ [_ Hb]].
    rewrite Hval in Hb.
    eapply Z.lt_le_trans; [exact Hb|]. apply Z.pow_le_mono_r; lia.
  - intros Hlt.
    destruct (hex_fixed_digits w fuel n) as (z & _ & Hz);
      [lia | assumption | assumption | unfold fuel; lia | lia].
Qed.

Lemma decode_id_fields (len_id : Z) (w1 w2 w3 : nat) (int_1 int_2 int_3 : Z) :
  (1 <= w1)%nat -> (1 <= w2)%nat -> (1 <= w3)%nat ->
  0 <= int_1 -> 0 <= int_2 -> 0 <= int_3 ->
  len_id = Z.of_nat (w1 + w2 + w3) ->
  (if len_id =? 40 then (14, 13, 13) else (Z.quot len_id 3, Z.quot len_id 3, Z.quot len_id 3))
  = (Z.of_nat w1, Z.of_nat w2, Z.of_nat w3) ->
  (int_1 < 16 ^ Z.of_nat w1 /\ int_2 < 16 ^ Z.of_nat w2 /\ int_3 < 16 ^ Z.of_nat w3 ->
   decode_id len_id int_1 int_2 int_3
   = Returns (hex_fixed w1 int_1 ++ hex_fixed w2 int_2 ++ hex_fixed w3 int_3)) /\
  (~ (int_1 < 16 ^ Z.of_nat w1 /\ int_2 < 16 ^ Z.of_nat w2 /\ int_3 < 16 ^ Z.of_nat w3) ->
   decode_id len_id int_1 int_2 int_3 = Raises AssertionError).
Proof.
  intros W1 W2 W3 H1 H2 H3 Hlen Hw. unfold decode_id.
  assert (Hz : (if len_id =? 40
                then (zfill 14 (drop 2 (hex int_1)), zfill 13 (drop 2 (hex int_2)),
                      zfill 13 (drop 2 (hex int_3)))
                else (zfill (Z.quot len_id 3) (drop 2 (hex int_1)),
                      zfill (Z.quot len_id 3) (drop 2 (hex int_2)),
                      zfill (Z.quot len_id 3) (drop 2 (hex int_3))))
               = (zfill (Z.of_nat w1) (drop 2 (hex int_1)),
                  zfill (Z.of_nat w2) (drop 2 (hex int_2)),
                  zfill (Z.of_nat w3) (drop 2 (hex int_3)))).
  { destruct (len_id =? 40); injection Hw as -> -> ->; reflexivity. }
  rewrite Hz. clear Hz. cbv beta iota zeta.
  destruct (length_zfill_hex w1 int_1 W1 H1) as [G1 E1].
  destruct (length_zfill_hex w2 int_2 W2 H2) as [G2 E2].
  destruct (length_zfill_hex w3 int_3 W3 H3) as [G3 E3].
  split.
  - intros (B1 & B2 & B3).
    rewrite !zfill_hex by lia.
    rewrite !length_append, !length_hex_fixed, Hlen.
    replace (Z.of_nat (w1 + (w2 + w3)) =? Z.of_nat (w1 + w2 + w3)) with true
      by (symmetry; apply Z.eqb_eq; lia).
    reflexivity.
  - intros Hnot. rewrite !length_append.
    destruct (Z.eqb_spec
                (Z.of_nat (String.length (zfill (Z.of_nat w1) (drop 2 (hex int_1)))
                           + (String.length (zfill (Z.of_nat w2) (drop 2 (hex int_2)))
                              + String.length (zfill (Z.of_nat w3) (drop 2 (hex int_3))))))
                len_id) as [E|_]; [|reflexivity].
    exfalso. apply Hnot. rewrite <- E1, <- E2, <- E3. lia.
Qed.

Lemma decode_id_fitting (len_id int_1 int_2 int_3 : Z) :
  fits len_id int_1 int_2 int_3 ->
  exists id,
    decode_id len_id int_1 int_2 int_3 = Returns id /\
    valid_id id /\ lower id = id /\
    encode_id (Some id) = Returns (len_id, int_1, int_2, int_3).
Proof.
  assert (G : forall (w1 w2 w3 : nat),
             (1 <= w1)%nat -> (1 <= w2)%nat -> (1 <= w3)%nat ->
             In (w1 + w2 + w3)%nat [24; 32; 40]%nat ->
             piece_widths (w1 + w2 + w3) = (w1, w2, w3) ->
             0 <= int_1 < 16 ^ Z.of_nat w1 -> 0 <= int_2 < 16 ^ Z.of_nat w2 ->
             0 <= int_3 < 16 ^ Z.of_nat w3 ->
             let id := hex_fixed w1 int_1 ++ hex_fixed w2 int_2 ++ hex_fixed w3 int_3 in
             valid_id id /\ lower id = id /\
             encode_id (Some id) = Returns (Z.of_nat (w1 + w2 + w3), int_1, int_2, int_3)).
  { intros w1 w2 w3 W1 W2 W3 Hin Hpw B1 B2 B3 id.
    assert (Hl : String.length id = (w1 + w2 + w3)%nat).
    { unfold id. rewrite !length_append, !length_hex_fixed. lia. }
    assert (Hv : valid_id id).
    { split; [now rewrite Hl|]. unfold id.
      now rewrite !forallb_append, !hex_fixed_is_hex. }
    split; [exact Hv|]. split.
    { unfold id. now rewrite <- lower_pieces, !lower_hex_fixed. }
    rewrite (encode_id_valid id Hv).
    pose proof (id_pieces_spec id (proj1 Hv)) as Hs.
    destruct (id_pieces id) as [[a b] c]. destruct Hs as [Hcat Hw].
    rewrite Hl, Hpw in Hw. injection Hw as La Lb Lc.
    assert (Ea : a = hex_fixed w1 int_1 /\ b = hex_fixed w2 int_2 /\ c = hex_fixed w3 int_3).
    { unfold id in Hcat.
      assert (Hsplit : forall s1 s2 t1 t2 : string,
                 String.length s1 = String.length t1 -> s1 ++ s2 = t1 ++ t2 ->
                 s1 = t1 /\ s2 = t2).
      { induction s1 as [|x s1 IHs]; intros s2 [|y t1] t2 Hlen Heq; try discriminate.
        - now split.
        - simpl in Hlen, Heq. injection Hlen as Hlen. injection Heq as -> Heq.
          destruct (IHs _ _ _ Hlen Heq) as [-> ->]. now split. }
      apply Hsplit in Hcat as [-> Hcat]; [|now rewrite length_hex_fixed].
      apply Hsplit in Hcat as [-> ->]; [|now rewrite length_hex_fixed].
      auto. }
    destruct Ea as (-> & -> & ->).
    now rewrite Hl, !hex_value_hex_fixed by assumption. }
  intros [(-> & B1 & B2 & B3) | (-> & B1 & B2 & B3)].
  - destruct (G 8 8 8)%nat as (Hv & Hlow & He); try lia; try assumption;
      [simpl; tauto | reflexivity |].
    eexists. split; [|split; [exact Hv | split; [exact Hlow | exact He]]].
    apply (decode_id_fields 24 8 8 8); try lia; reflexivity.
  - destruct (G 14 13 13)%nat as (Hv & Hlow & He); try lia; try assumption;
      [simpl; tauto | reflexivity |].
    eexists. split; [|split; [exact Hv | split; [exact Hlow | exact He]]].
    apply (decode_id_fields 40 14 13 13); try lia; reflexivity.
Qed.

(** Decoding a fitting tuple returns a valid, lower-case identifier, and
    encoding that identifier gives the tuple back. *)
Theorem encode_decode_id (len_id int_1 int_2 int_3 : Z) :
  fits len_id int_1 int_2 int_3 ->
  exists id,
    decode_id len_id int_1 int_2 int_3 = Returns id /\
    valid_id id /\ lower id = id /\
    encode_id (Some id) = Returns (len_id, int_1, int_2, int_3).
Proof. apply decode_id_fitting. Qed.

Lemma encode_decode_id_witness :
  exists id,
    decode_id 24 255 0 16 = Returns id /\
    valid_id id /\ lower id = id /\
    encode_id (Some id) = Returns (24, 255, 0, 16).
Proof.
  apply (encode_decode_id 24 255 0 16). left. repeat split; lia.
Defined.

(** For length 24 or 40 and non-negative integers, [decode_id] returns
    exactly when every integer fits the width of its piece; an integer with
    more digits fails the length assertion. *)
Theorem decode_id_returns_iff_fits (len_id int_1 int_2 int_3 : Z) :
  len_id = 24 \/ len_id = 40 ->
  0 <= int_1 -> 0 <= int_2 -> 0 <= int_3 ->
  ((exists id, decode_id len_id int_1 int_2 int_3 = Returns id)
   <-> fits len_id int_1 int_2 int_3) /\
  (~ fits len_id int_1 int_2 int_3 ->
   decode_id len_id int_1 int_2 int_3 = Raises AssertionError).
Proof.
  intros Hlen H1 H2 H3.
  assert (Hraise : ~ fits len_id int_1 int_2 int_3 ->
                   decode_id len_id int_1 int_2 int_3 = Raises AssertionError).
  { intros Hnot. destruct Hlen as [-> | ->].
    - apply (decode_id_fields 24 8 8 8); try lia; try reflexivity.
      intros (B1 & B2 & B3). apply Hnot. left. repeat split; lia.
    - apply (decode_id_fields 40 14 13 13); try lia; try reflexivity.
      intros (B1 & B2 & B3). apply Hnot. right. repeat split; lia. }
  split; [|exact Hraise]. split.
  - intros [id E].
    assert (Hdec : fits len_id int_1 int_2 int_3 \/ ~ fits len_id int_1 int_2 int_3).
    { unfold fits. lia. }
    destruct Hdec as [|Hnot]; [assumption|]. rewrite (Hraise Hnot) in E. discriminate.
  - intros Hf. destruct (decode_id_fitting _ _ _ _ Hf) as (id & E & _). eauto.
Qed.

Lemma decode_id_returns_iff_fits_witness :
  decode_id 24 (16 ^ 8) 0 0 = Raises AssertionError.
Proof.
  apply (decode_id_returns_iff_fits 24 (16 ^ 8) 0 0); try lia.
  unfold fits. lia.
Defined.

(** ** More on the chunk-size heuristic *)


Lemma initial_chunk_size_pos (cpu_count n mn mx : Z) :
  1 <= n -> 0 <= cpu_count -> 1 <= mx -> 1 <= initial_chunk_size cpu_count n mn mx <= mx.
Proof.
  intros Hn Hcpu Hmx. unfold initial_chunk_size, Np.clip.
  assert (1 <= or_1 cpu_count) by (unfold or_1; destruct (Z.eqb_spec cpu_count 0); lia).
  pose proof (ceil_div_pos (Np.ceil_div n (or_1 cpu_count)) 5
                (ceil_div_pos n (or_1 cpu_count) ltac:(lia) ltac:(lia)) ltac:(lia)).
  lia.
Qed.

(** The loop returns the first chunk size from its start on that does not
    leave remainder 1. *)
Lemma grow_chunk_size_least (fuel : nat) :
  forall n c c',
    grow_chunk_size fuel n c = Some (Returns c') ->
    c <= c' /\ n mod c' <> 1 /\ forall k, c <= k < c' -> n mod k = 1.
Proof.
  induction fuel as [|fuel IH]; intros n c c' H; [discriminate|].
  cbn [grow_chunk_size] in H.
  destruct (Z.eqb_spec c 0) as [|Hc0]; [discriminate|].
  destruct (Z.eqb_spec (n mod c) 1) as [E|E].
  - apply IH in H as (Hle & Hmod & Hbetween).
    repeat split; [lia | assumption |].
    intros k Hk. destruct (Z.eq_dec k c) as [->|]; [assumption | apply Hbetween; lia].
  - injection H as <-. repeat split; [lia | assumption | intros k Hk; lia].
Qed.

(** From two records on, with sizes a float64 holds exactly, fuel beyond
    the number of records is enough, and the chunk size stays below the
    larger of [max_chunksize] and the number of records. *)
Theorem calc_chunksize_returns (fuel : nat) (cpu_count num_dicts min_chunksize max_chunksize : Z) :
  2 <= num_dicts -> 0 <= cpu_count -> 1 <= max_chunksize ->
  float_sized cpu_count num_dicts min_chunksize max_chunksize ->
  (Z.to_nat num_dicts < fuel)%nat ->
  exists chunk_size worker_count,
    calc_chunksize fuel cpu_count num_dicts min_chunksize max_chunksize
    = Some (Returns (chunk_size, worker_count)) /\
    1 <= chunk_size <= Z.max max_chunksize num_dicts.
Proof.
  intros Hn Hcpu Hmx _ Hfuel.
  pose proof (initial_chunk_size_pos cpu_count num_dicts min_chunksize max_chunksize
                ltac:(lia) Hcpu Hmx) as Hc0.
  unfold calc_chunksize. fold (initial_chunk_size cpu_count num_dicts min_chunksize max_chunksize).
  set (c0 := initial_chunk_size _ _ _ _) in *.
  destruct (grow_chunk_size_terminates num_dicts Hn fuel c0 ltac:(lia) ltac:(lia))
    as (c' & Hc' & Hle).
  rewrite Hc'. apply grow_chunk_size_returns in Hc' as (Hge & _ & _).
  do 2 eexists. split; [reflexivity | lia].
Qed.

Lemma calc_chunksize_returns_witness :
  exists chunk_size worker_count,
    calc_chunksize 14 8 13 4 2000 = Some (Returns (chunk_size, worker_count)) /\
    1 <= chunk_size <= Z.max 2000 13.
Proof.
  apply (calc_chunksize_returns 14 8 13 4 2000); try lia.
  unfold float_sized, float_exact. lia.
Defined.

(** With sizes a float64 holds exactly, the returned chunk size is the
    least one, from the clipped start on, that does not leave a single
    record over: every size skipped leaves remainder 1.  When the start does
    not leave remainder 1 it is returned as it is. *)
Theorem calc_chunksize_least (fuel : nat) (cpu_count num_dicts min_chunksize max_chunksize : Z)
        (chunk_size worker_count : Z) :
  float_sized cpu_count num_dicts min_chunksize max_chunksize ->
  calc_chunksize fuel cpu_count num_dicts min_chunksize max_chunksize
  = Some (Returns (chunk_size, worker_count)) ->
  let start := initial_chunk_size cpu_count num_dicts min_chunksize max_chunksize in
  start <= chunk_size /\
  num_dicts mod chunk_size <> 1 /\
  (forall k, start <= k < chunk_size -> num_dicts mod k = 1) /\
  (num_dicts mod start <> 1 -> chunk_size = start).
Proof.
  intros _ H start. unfold calc_chunksize in H.
  fold (initial_chunk_size cpu_count num_dicts min_chunksize max_chunksize) in H.
  fold start in H.
  destruct (grow_chunk_size fuel num_dicts start) as [[c|e]|] eqn:E; try discriminate.
  injection H as <- _.
  apply grow_chunk_size_least in E as (Hle & Hmod & Hbetween).
  repeat split; try assumption.
  intros Hstart. destruct (Z.eq_dec c start) as [|Hne]; [assumption|].
  exfalso. apply Hstart, Hbetween. lia.
Qed.

Lemma calc_chunksize_least_witness :
  4 <= 5 /\ 13 mod 5 <> 1 /\ (forall k, 4 <= k < 5 -> 13 mod k = 1) /\
  (13 mod 4 <> 1 -> 5 = 4).
Proof.
  apply (calc_chunksize_least 2 8 13 4 2000 5 2); [|reflexivity].
  unfold float_sized, float_exact. lia.
Defined.

(** A platform that reports no CPU is treated as one with a single CPU. *)
Theorem calc_chunksize_no_cpu (fuel : nat) (num_dicts min_chunksize max_chunksize : Z) :
  calc_chunksize fuel 0 num_dicts min_chunksize max_chunksize
  = calc_chunksize fuel 1 num_dicts min_chunksize max_chunksize.
Proof.
  unfold calc_chunksize. change (or_1 0) with 1. change (or_1 1) with 1.
  destruct (grow_chunk_size fuel num_dicts _) as [[c|e]|]; try reflexivity.
  do 3 f_equal. unfold or_1.
  destruct (Z.eqb_spec (Z.min 0 (Z.quot num_dicts c)) 0);
    destruct (Z.eqb_spec (Z.min 1 (Z.quot num_dicts c)) 0); lia.
Qed.

(** With sizes a float64 holds exactly: no more workers than CPUs and no
    more than full chunks; a worker count above 1 has a full chunk for
    every worker. *)
Theorem calc_chunksize_workers (fuel : nat) (cpu_count num_dicts min_chunksize max_chunksize : Z)
        (chunk_size worker_count : Z) :
  1 <= num_dicts -> 1 <= cpu_count -> 1 <= max_chunksize ->
  float_sized cpu_count num_dicts min_chunksize max_chunksize ->
  calc_chunksize fuel cpu_count num_dicts min_chunksize max_chunksize
  = Some (Returns (chunk_size, worker_count)) ->
  worker_count <= cpu_count /\
  (worker_count = 1 \/ worker_count * chunk_size <= num_dicts) /\
  (num_dicts < chunk_size -> worker_count = 1).
Proof.
  intros Hn Hcpu Hmx _ H.
  pose proof (initial_chunk_size_pos cpu_count num_dicts min_chunksize max_chunksize
                Hn ltac:(lia) Hmx) as Hc0.
  unfold calc_chunksize in H.
  fold (initial_chunk_size cpu_count num_dicts min_chunksize max_chunksize) in H.
  destruct (grow_chunk_size fuel num_dicts _) as [[c|e]|] eqn:E; try discriminate.
  injection H as <- <-.
  apply grow_chunk_size_returns in E as (Hge & _ & _).
  assert (Hq : 0 <= Z.quot num_dicts c) by (apply Z.quot_pos; lia).
  assert (Hqc : Z.quot num_dicts c * c <= num_dicts).
  { rewrite Z.quot_div_nonneg by lia. pose proof (Z.mul_div_le num_dicts c). lia. }
  unfold or_1. destruct (Z.eqb_spec (Z.min cpu_count (Z.quot num_dicts c)) 0) as [E0|E0].
  - split; [lia | split; [now left | reflexivity]].
  - split; [lia | split].
    + right. nia.
    + intros Hlt. rewrite Z.quot_small in E0 by lia. lia.
Qed.

Lemma calc_chunksize_workers_witness :
  2 <= 8 /\ (2 = 1 \/ 2 * 5 <= 13) /\ (13 < 5 -> 2 = 1).
Proof.
  apply (calc_chunksize_workers 2 8 13 4 2000 5 2); try lia; try reflexivity.
  unfold float_sized, float_exact. lia.
Defined.

(** ** More on the IOB merge *)

(** What one iteration can do to the heap: nothing, or, on a continuation
    tag while an entity is open, set the end of the open span to the end of
    the token's span. *)
Lemma iob_step_store (st st' : locals) (pred : string) (span : loc) :
  iob_step st pred span = Returns st' ->
  store st' = store st \/
  (contains "B-" pred = false /\ contains "I-" pred = true /\ open_tag st = true /\
   exists s, cur_span st = Some s /\
             store st' = set_end (store st) s (span_end (store st span))).
Proof.
  assert (Hend : forall st1 st2, end_of_tag st1 = Returns st2 -> store st2 = store st1).
  { intros st1 st2. unfold end_of_tag, append_current.
    destruct (open_tag st1); [|now intros [= <-]].
    destruct (cur_span st1); [|discriminate]. destruct (cur_tag st1); [|discriminate].
    cbn. now intros [= <-]. }
  unfold iob_step.
  destruct (contains "B-" pred) eqn:EB; cbn [orb negb].
  - intros H. left. unfold append_current in H.
    destruct (open_tag st); [|cbn in H; now injection H as <-].
    destruct (cur_span st); [|discriminate]. destruct (cur_tag st); [|discriminate].
    cbn in H. now injection H as <-.
  - destruct (contains "I-" pred) eqn:EI; cbn [negb]; [|intros H; left; eauto].
    destruct (open_tag st) eqn:Eo; cbn [bind]; [|intros H; left; eauto].
    destruct (cur_tag st) as [t|]; [|discriminate]. cbn [read bind].
    destruct (String.eqb _ t); [|intros H; left; eauto].
    destruct (cur_span st) as [s|]; [|discriminate]. cbn [read bind].
    intros [= <-]. right. repeat split. exists s. split; reflexivity.
Qed.

Lemma iob_step_keeps_closed (st : locals) (pred : string) (span : loc) :
  open_tag st = false -> contains "B-" pred = false ->
  iob_step st pred span = Returns st.
Proof.
  intros Eo EB. unfold iob_step, end_of_tag. rewrite EB, Eo. cbn [orb negb bind].
  now destruct (contains "I-" pred).
Qed.

(** Without any tag that contains ["B-"] nothing is merged: the result is
    two empty lists and the heap is the one handed in; continuation tags
    with nothing open are dropped. *)
Theorem convert_without_opening (h : heap) (preds : list string) (spans : list loc) :
  Forall (fun pred => contains "B-" pred = false) preds ->
  convert_iob_to_simple_tags h preds spans = Returns ([], [], h).
Proof.
  intros Hall. unfold convert_iob_to_simple_tags.
  assert (Hloop : forall tokens st,
             Forall (fun token => contains "B-" (fst token) = false) tokens ->
             open_tag st = false -> iob_loop st tokens = Returns st).
  { induction tokens as [|[pred span] rest IH]; intros st Hf Eo; [reflexivity|].
    inversion Hf as [|? ? Hp Hr]; subst. cbn [iob_loop].
    rewrite (iob_step_keeps_closed st pred span Eo Hp). cbn [bind]. now apply IH. }
  rewrite Hloop; [reflexivity | | reflexivity].
  clear Hloop. revert spans. induction Hall as [|p ps Hp _ IH]; intros [|l spans];
    cbn [combine]; constructor; auto.
Qed.

Lemma convert_without_opening_witness :
  convert_iob_to_simple_tags heap2 ["I-PER"; "O"] [0; 1]%nat = Returns ([], [], heap2).
Proof.
  apply (convert_without_opening heap2 ["I-PER"; "O"] [0; 1]%nat).
  repeat constructor.
Defined.

(** The heap is written only on continuation tags: when every tag either
    contains ["B-"] or does not contain ["I-"], the spans handed in are all
    left as they are. *)
Theorem convert_without_continuation (h : heap) (preds : list string) (spans : list loc) :
  Forall (fun pred => contains "B-" pred = true \/ contains "I-" pred = false) preds ->
  exists tags locs,
    convert_iob_to_simple_tags h preds spans = Returns (tags, locs, h).
Proof.
  intros Hall.
  destruct (convert_iob_to_simple_tags_spec h preds spans) as (tags & locs & h' & E & _).
  exists tags, locs. rewrite E. do 2 f_equal.
  unfold convert_iob_to_simple_tags in E.
  assert (Hloop : forall tokens st st',
             Forall (fun token => contains "B-" (fst token) = true
                                  \/ contains "I-" (fst token) = false) tokens ->
             iob_loop st tokens = Returns st' -> store st' = store st).
  { induction tokens as [|[pred span] rest IH]; intros st st' Hf H.
    - now injection H as <-.
    - inversion Hf as [|? ? Hp Hr]; subst. cbn [iob_loop fst] in *.
      destruct (iob_step st pred span) as [st1|e] eqn:E1; [|discriminate].
      cbn [bind] in H. rewrite (IH _ _ Hr H).
      destruct (iob_step_store _ _ _ _ E1) as [|(EB & EI & _)]; [assumption|].
      destruct Hp; congruence. }
  destruct (iob_loop (iob_init h) (combine preds spans)) as [st1|e] eqn:E1; [|discriminate].
  cbn [bind] in E. destruct (end_of_tag st1) as [st2|e] eqn:E2; [|discriminate].
  cbn [bind] in E. injection E as _ _ <-.
  assert (Hs2 : store st2 = store st1).
  { revert E2. unfold end_of_tag, append_current.
    destruct (open_tag st1); [|now intros [= <-]].
    destruct (cur_span st1); [|discriminate]. destruct (cur_tag st1); [|discriminate].
    cbn. now intros [= <-]. }
  rewrite Hs2. apply (Hloop _ _ _) in E1; [exact E1|].
  clear -Hall. revert spans. induction Hall as [|p ps Hp _ IH]; intros [|l spans];
    cbn [combine]; constructor; auto.
Qed.

Lemma convert_without_continuation_witness :
  exists tags locs,
    convert_iob_to_simple_tags heap2 ["B-PER"; "B-LOC"] [0; 1]%nat = Returns (tags, locs, heap2).
Proof.
  apply (convert_without_continuation heap2 ["B-PER"; "B-LOC"] [0; 1]%nat).
  repeat constructor.
Defined.

(** [zip] stops at the shorter list: tags or spans beyond the common length
    are ignored, and unequal lengths are no error. *)
Theorem convert_truncates (h : heap) (preds : list string) (spans : list loc) :
  let n := Nat.min (List.length preds) (List.length spans) in
  convert_iob_to_simple_tags h preds spans
  = convert_iob_to_simple_tags h (firstn n preds) (firstn n spans).
Proof.
  intros n. unfold convert_iob_to_simple_tags.
  rewrite <- combine_firstn. unfold n. rewrite <- length_combine. now rewrite firstn_all.
Qed.

(** The merge never makes up an offset: afterwards every span has its old
    start, and its end is its old end or the old end of one of the spans
    handed in. *)
Theorem convert_ends_from_input (h : heap) (preds : list string) (spans : list loc) :
  exists tags locs h',
    convert_iob_to_simple_tags h preds spans = Returns (tags, locs, h') /\
    forall l,
      span_start (h' l) = span_start (h l) /\
      (span_end (h' l) = span_end (h l) \/
       exists l', In l' spans /\ span_end (h' l) = span_end (h l')).
Proof.
  destruct (convert_iob_to_simple_tags_spec h preds spans)
    as (tags & locs & h' & E & _ & _ & Hstart & _).
  exists tags, locs, h'. split; [exact E|]. intros l. split; [apply Hstart|].
  set (from_input := fun h1 : heap =>
         forall l, span_end (h1 l) = span_end (h l) \/
                   exists l', In l' spans /\ span_end (h1 l) = span_end (h l')).
  assert (Hloop : forall tokens st st',
             (forall token, In token tokens -> In (snd token) spans) ->
             from_input (store st) ->
             iob_loop st tokens = Returns st' -> from_input (store st')).
  { induction tokens as [|[pred span] rest IH]; intros st st' Hin Hst H.
    - now injection H as <-.
    - cbn [iob_loop] in H.
      destruct (iob_step st pred span) as [st1|e] eqn:E1; [|discriminate].
      cbn [bind] in H. apply (IH st1 st'); [intros tok Ht; apply Hin; now right | | exact H].
      destruct (iob_step_store _ _ _ _ E1) as [->|(_ & _ & _ & s & _ & ->)]; [exact Hst|].
      intros l0. unfold set_end. destruct (Nat.eqb l0 s); [|apply Hst].
      cbn [span_end]. right.
      assert (Hspan : In span spans) by (apply (Hin (pred, span)); now left).
      destruct (Hst span) as [Hs|(l' & Hl' & Hs)]; eauto. }
  unfold convert_iob_to_simple_tags in E.
  destruct (iob_loop (iob_init h) (combine preds spans)) as [st1|e] eqn:E1; [|discriminate].
  cbn [bind] in E. destruct (end_of_tag st1) as [st2|e] eqn:E2; [|discriminate].
  cbn [bind] in E. injection E as _ _ <-.
  assert (Hs2 : store st2 = store st1).
  { revert E2. unfold end_of_tag, append_current.
    destruct (open_tag st1); [|now intros [= <-]].
    destruct (cur_span st1); [|discriminate]. destruct (cur_tag st1); [|discriminate].
    cbn. now intros [= <-]. }
  rewrite Hs2. apply (Hloop _ _ _) in E1; [apply E1 | | intros l0; now left].
  intros [p s] Hin. apply in_combine_r in Hin. exact Hin.
Qed.

Lemma spec_run_well_formed (tokens : list (string * span)) :
  forall ms,
    in_reading_order (List.map snd tokens) ->
    match ms with
    | OPEN _ sp =>
        well_formed sp /\ Forall (fun v => span_end sp <= span_end v) (List.map snd tokens)
    | CLOSED => True
    end ->
    Forall well_formed (List.map snd (spec_run ms tokens)).
Proof.
  induction tokens as [|[tag v] rest IH]; intros ms [Hwf Hsorted] Hms.
  - destruct ms as [|t sp]; cbn; [constructor|]. constructor; [apply Hms | constructor].
  - cbn [List.map snd] in Hwf, Hsorted, Hms.
    inversion Hwf as [|? ? Hv Hwf']; subst.
    inversion Hsorted as [|? ? Hsorted' Hafter]; subst.
    assert (Hrest : in_reading_order (List.map snd rest)) by (split; assumption).
    assert (Hemit : Forall well_formed (List.map snd (emit_open ms))).
    { destruct ms as [|t sp]; cbn; [constructor|]. constructor; [apply Hms | constructor]. }
    cbn [spec_run]. unfold spec_step.
    destruct (parse_tag tag) as [|X|X]; cbn [fst snd].
    + rewrite map_app. apply Forall_app. split; [exact Hemit|]. now apply IH.
    + rewrite map_app. apply Forall_app. split; [exact Hemit|].
      apply IH; [exact Hrest|]. split; assumption.
    + destruct ms as [|t sp].
      * cbn [app]. now apply IH.
      * destruct Hms as [Hsp Hle]. inversion Hle as [|? ? Hspv Hle']; subst.
        destruct (String.eqb X t).
        -- cbn [app]. apply IH; [exact Hrest|]. split.
           ++ unfold well_formed in *. cbn. lia.
           ++ exact Hafter.
        -- rewrite map_app. apply Forall_app. split; [exact Hemit|]. now apply IH.
Qed.

Lemma map_snd_token_values (h : heap) (tokens : list (string * loc)) :
  List.map snd (token_values h tokens) = deref h (List.map snd tokens).
Proof.
  unfold token_values, deref. rewrite !List.map_map. reflexivity.
Qed.

(** When the tags are [O], [B-X], [I-X] over clean type names and the
    spans are distinct objects in reading order, every merged span is well
    formed: its start is not after its end. *)
Theorem convert_well_formed (h : heap) (tags : list string) (spans : list loc) :
  Forall iob_label tags ->
  List.length tags = List.length spans ->
  NoDup spans ->
  in_reading_order (deref h spans) ->
  exists out_tags out_locs h',
    convert_iob_to_simple_tags h tags spans = Returns (out_tags, out_locs, h') /\
    Forall well_formed (deref h' out_locs).
Proof.
  intros Hlab Hlen Hnd Hord.
  pose proof (combine_labels tags spans Hlab) as Hlab'.
  destruct (iob_loop_refines (combine tags spans) (iob_init h) CLOSED Hlab')
    as (st1 & st' & E1 & E' & T' & D').
  { now apply sim_closed. }
  { rewrite map_snd_combine_eq by assumption. split; [assumption|].
    intros l _. split; [intros [] | discriminate]. }
  unfold convert_iob_to_simple_tags. rewrite E1. cbn [bind]. rewrite E'. cbn [bind].
  do 3 eexists. split; [reflexivity|].
  rewrite D'. cbn [iob_init merged_spans store deref List.map app].
  apply spec_run_well_formed; [|exact I].
  now rewrite map_snd_token_values, map_snd_combine_eq.
Qed.

Lemma convert_well_formed_witness :
  exists out_tags out_locs h',
    convert_iob_to_simple_tags heap2 ["B-PER"; "I-PER"] [0; 1]%nat
    = Returns (out_tags, out_locs, h') /\
    Forall well_formed (deref h' out_locs).
Proof.
  apply (convert_well_formed heap2 ["B-PER"; "I-PER"] [0; 1]%nat).
  - apply Forall_cons; [apply (label_B "PER"); split; reflexivity|].
    apply Forall_cons; [apply (label_I "PER"); split; reflexivity|].
    apply Forall_nil.
  - reflexivity.
  - repeat constructor; simpl; lia.
  - split.
    + repeat constructor; unfold well_formed; simpl; lia.
    + repeat constructor; simpl; lia.
Defined.

(** ** [flatten_list] *)


Example flatten_doctest_1 :
  flatten_list [Atom 1; Atom 2; Atom 3; PyList [Atom 4]; PyList [];
                PyList [PyList [PyList [PyList [Atom 5]]]]]
  = [1; 2; 3; 4; 5].
Proof. reflexivity. Qed.

Example flatten_doctest_2 : flatten_list [PyList [Atom 1; Atom 2]; Atom 3] = [1; 2; 3].
Proof. reflexivity. Qed.

Lemma flatten_loop_leaves {A : Type} (nested_list : list (pyobj A)) :
  flatten_loop nested_list = flat_map leaves nested_list.
Proof.
  funelim (flatten_loop nested_list).
  - reflexivity.
  - (* a value that is no list is yielded *)
    match goal with IH : flatten_loop _ = flat_map _ _ |- _ => rewrite IH end.
    reflexivity.
  - (* a list is unpacked in front of the rest *)
    match goal with IH : flatten_loop _ = flat_map _ _ |- _ => rewrite IH end.
    now rewrite flat_map_app.
Qed.


Example flatten_list_call_too_deep :
  flatten_list_call 3 [PyList [PyList [PyList [Atom 5]]]] = Raises RecursionError /\
  flatten_list_call 5 [PyList [PyList [PyList [Atom 5]]]] = Returns [5].
Proof. split; reflexivity. Qed.

(** Flattening two lists one after the other is flattening them joined. *)
Theorem flatten_list_app {A : Type} (l1 l2 : list (pyobj A)) :
  flatten_list (l1 ++ l2)%list = (flatten_list l1 ++ flatten_list l2)%list.
Proof. unfold flatten_list. rewrite !flatten_loop_leaves. apply flat_map_app. Qed.

(** A list without sublists is yielded as it is, and flattening what was
    flattened changes nothing. *)
Theorem flatten_list_flat {A : Type} (l : list A) (nested_list : list (pyobj A)) :
  flatten_list (List.map Atom l) = l /\
  flatten_list (List.map Atom (flatten_list nested_list)) = flatten_list nested_list.
Proof.
  assert (H : forall l : list A, flatten_list (List.map Atom l) = l).
  { intros l0. unfold flatten_list. rewrite flatten_loop_leaves.
    induction l0 as [|a l0 IH]; [reflexivity|]. cbn. now rewrite IH. }
  split; apply H.
Qed.

(** ** Logging helpers *)



Lemma fold_left_info (msgs : list string) :
  forall log, fold_left info msgs log = (log ++ msgs)%list.
Proof.
  induction msgs as [|m msgs IH]; intros log; cbn [fold_left].
  - now rewrite app_nil_r.
  - rewrite IH. unfold info. now rewrite <- app_assoc.
Qed.

Lemma split_on_nonempty (sep : ascii) (s : string) : split_on sep s <> [].
Proof.
  induction s as [|c r IH]; cbn; [discriminate|].
  destruct (Ascii.eqb c sep); [discriminate|].
  destruct (split_on sep r); discriminate.
Qed.

Lemma join_cons_char (sep : string) (c : ascii) (w : string) (ws : list string) :
  join sep (String c w :: ws) = String c (join sep (w :: ws)).
Proof. now destruct ws. Qed.

Lemma join_split_on (sep : ascii) (s : string) :
  join (String sep EmptyString) (split_on sep s) = s.
Proof.
  induction s as [|c r IH]; [reflexivity|]. cbn [split_on].
  pose proof (split_on_nonempty sep r) as Hnil.
  destruct (Ascii.eqb_spec c sep) as [->|Hne].
  - destruct (split_on sep r) as [|w ws]; [congruence|].
    change (join (String sep "") ("" :: w :: ws))
      with (String sep (join (String sep "") (w :: ws))).
    now rewrite IH.
  - destruct (split_on sep r) as [|w ws]; [congruence|].
    now rewrite join_cons_char, IH.
Qed.

Lemma length_split_on (sep : ascii) (s : string) :
  List.length (split_on sep s) = S (count_char sep s).
Proof.
  induction s as [|c r IH]; [reflexivity|]. cbn [split_on count_char].
  pose proof (split_on_nonempty sep r) as Hnil.
  destruct (Ascii.eqb c sep); [cbn; now rewrite IH|].
  destruct (split_on sep r) as [|w ws]; [congruence|]. cbn in *. lia.
Qed.

Lemma split_on_no_sep (sep : ascii) (s : string) :
  Forall (fun w => count_char sep w = 0%nat) (split_on sep s).
Proof.
  induction s as [|c r IH]; [repeat constructor|]. cbn [split_on].
  destruct (Ascii.eqb c sep) eqn:E; [constructor; [reflexivity | exact IH]|].
  destruct (split_on sep r) as [|w ws]; [repeat constructor; cbn; now rewrite E|].
  inversion IH as [|? ? Hw Hws]; subst. constructor; [|exact Hws].
  cbn. now rewrite E, Hw.
Qed.

(** [format_log] keeps what was logged before and then logs the text line
    by line, losing nothing: the new messages have no newline, there is one
    more of them than newlines in the text, and joined by newlines they are
    the text. *)
Theorem format_log_lines (ascii : string) (log : logger) :
  exists lines,
    format_log ascii log = (log ++ lines)%list /\
    join (String newline EmptyString) lines = ascii /\
    List.length lines = S (count_char newline ascii) /\
    Forall (fun line => count_char newline line = 0%nat) lines.
Proof.
  exists (split_on newline ascii). unfold format_log.
  split; [apply fold_left_info|].
  split; [apply join_split_on|].
  split; [apply length_split_on | apply split_on_no_sep].
Qed.

Lemma length_zip_star (rows : list (list string)) (k : nat) :
  rows <> [] -> Forall (fun row => List.length row = k) rows ->
  List.length (zip_star rows) = k.
Proof.
  induction rows as [|row rest IH]; intros Hne Hall; [congruence|].
  inversion Hall as [|? ? Hrow Hrest]; subst.
  destruct rest as [|row' rest'].
  - cbn. now rewrite List.length_map.
  - cbn [zip_star]. rewrite List.length_map, length_combine.
    cbn [zip_star] in IH. rewrite IH; [lia | discriminate | exact Hrest].
Qed.

(** [log_ascii_workers] logs nothing for [n <= 0]; for [n >= 1] and three
    pictures of the same height it logs as many lines as a picture has,
    whatever the random draws. *)
Theorem log_ascii_workers_lines (WORKER_M WORKER_F WORKER_X : string) (randint : nat -> Z)
        (n : Z) (log : logger) :
  count_char newline WORKER_M = count_char newline WORKER_F ->
  count_char newline WORKER_X = count_char newline WORKER_F ->
  exists lines,
    log_ascii_workers WORKER_M WORKER_F WORKER_X randint n log = (log ++ lines)%list /\
    List.length lines = if n <=? 0 then 0%nat else S (count_char newline WORKER_F).
Proof.
  intros Hm Hx. unfold log_ascii_workers.
  set (rows := List.map _ (seq 0 (Z.to_nat n))).
  exists (List.map (join "  ") (zip_star rows)). split.
  - generalize (zip_star rows). intros zs. revert log.
    induction zs as [|z zs IH]; intros log; cbn [fold_left List.map].
    + now rewrite app_nil_r.
    + rewrite IH. unfold info. now rewrite <- app_assoc.
  - rewrite List.length_map. destruct (Z.leb_spec n 0) as [Hle|Hgt].
    + unfold rows. replace (Z.to_nat n) with 0%nat by lia. reflexivity.
    + apply length_zip_star.
      * unfold rows. destruct (Z.to_nat n) eqn:E; [lia | discriminate].
      * unfold rows. apply Forall_map, Forall_forall. intros i _.
        unfold worker_lines.
        destruct (randint i mod 3 =? 0); [apply length_split_on|].
        destruct (randint i mod 3 =? 1); rewrite length_split_on; congruence.
Qed.

Lemma log_ascii_workers_lines_witness :
  exists lines,
    log_ascii_workers "m" "f" "x" (fun i => Z.of_nat i) 3 [] = ([] ++ lines)%list /\
    List.length lines = 1%nat.
Proof.
  apply (log_ascii_workers_lines "m" "f" "x" (fun i => Z.of_nat i) 3 []); reflexivity.
Defined.

(** ** Errors and the empty corpus in the chunk-size heuristic *)

Lemma grow_chunk_size_positive (fuel : nat) :
  forall n c e, 0 < c -> grow_chunk_size fuel n c <> Some (Raises e).
Proof.
  induction fuel as [|fuel IH]; intros n c e Hc; [discriminate|].
  cbn [grow_chunk_size].
  destruct (Z.eqb_spec c 0) as [|_]; [lia|].
  destruct (n mod c =? 1); [apply IH; lia | discriminate].
Qed.

(** Once the CPUs are counted, the integer steps raise only on a clipped
    start of 0, at the first remainder. *)
Lemma calc_chunksize_raises_start (fuel : nat) (cpu_count num_dicts min_chunksize max_chunksize : Z)
      (e : exn) :
  calc_chunksize fuel cpu_count num_dicts min_chunksize max_chunksize = Some (Raises e)
  <-> (1 <= fuel)%nat /\ e = ZeroDivisionError /\
      initial_chunk_size cpu_count num_dicts min_chunksize max_chunksize = 0.
Proof.
  unfold calc_chunksize.
  fold (initial_chunk_size cpu_count num_dicts min_chunksize max_chunksize).
  set (c0 := initial_chunk_size _ _ _ _).
  split.
  - destruct (grow_chunk_size fuel num_dicts c0) as [[c|e']|] eqn:E; try discriminate.
    intros [= ->]. destruct fuel as [|fuel]; [discriminate|].
    cbn [grow_chunk_size] in E.
    destruct (Z.eqb_spec c0 0) as [H0|H0].
    + injection E as <-. repeat split; [lia | assumption].
    + exfalso. destruct (Z.eqb_spec (num_dicts mod c0) 1) as [E1|E1]; [|discriminate].
      assert (0 < c0).
      { destruct (Z_lt_le_dec 0 c0) as [|Hle]; [assumption|].
        pose proof (Z.mod_neg_bound num_dicts c0 ltac:(lia)). lia. }
      apply (grow_chunk_size_positive fuel num_dicts (c0 - -1) e); [lia | exact E].
  - intros (Hfuel & -> & H0). destruct fuel as [|fuel]; [lia|].
    cbn [grow_chunk_size]. rewrite H0. reflexivity.
Qed.

(** With sizes a float64 holds exactly, the heuristic has two errors: the
    platform cannot count its CPUs, and [mp.cpu_count()] raises
    [NotImplementedError]; or the clipped start of the chunk size is 0 (as
    with [max_chunksize = 0]), and the first remainder is a division by
    zero.  It raises in these cases only; a negative start is returned as it
    is. *)
Theorem calc_chunksize_on_raises_iff (fuel : nat) (os_cpu_count : option Z)
        (num_dicts min_chunksize max_chunksize : Z) (e : exn) :
  float_sized_on os_cpu_count num_dicts min_chunksize max_chunksize ->
  (calc_chunksize_on fuel os_cpu_count num_dicts min_chunksize max_chunksize = Some (Raises e)
   <-> (os_cpu_count = None /\ e = NotImplementedError) \/
       (exists cpu_count, os_cpu_count = Some cpu_count /\ (1 <= fuel)%nat /\
                          e = ZeroDivisionError /\
                          initial_chunk_size cpu_count num_dicts min_chunksize max_chunksize = 0)).
Proof.
  intros _. destruct os_cpu_count as [cpu_count|]; cbn [calc_chunksize_on mp_cpu_count].
  - rewrite calc_chunksize_raises_start. split.
    + intros H. right. exists cpu_count. split; [reflexivity | exact H].
    + intros [[Hnone _] | (c & Hsome & H)]; [discriminate|].
      injection Hsome as <-. exact H.
  - split.
    + intros [= <-]. left. split; reflexivity.
    + intros [[_ ->] | (c & Hsome & _)]; [reflexivity | discriminate].
Qed.

Lemma calc_chunksize_on_raises_iff_witness :
  calc_chunksize_on 1 (Some 8) 13 0 0 = Some (Raises ZeroDivisionError)
  <-> (Some 8 = None /\ ZeroDivisionError = NotImplementedError) \/
      (exists cpu_count, Some 8 = Some cpu_count /\ (1 <= 1)%nat /\
                         ZeroDivisionError = ZeroDivisionError /\
                         initial_chunk_size cpu_count 13 0 0 = 0).
Proof.
  apply (calc_chunksize_on_raises_iff 1 (Some 8) 13 0 0 ZeroDivisionError).
  unfold float_sized_on, float_sized, float_exact. lia.
Defined.

Example calc_chunksize_on_no_count :
  calc_chunksize_on 1 None 13 4 2000 = Some (Raises NotImplementedError).
Proof. reflexivity. Qed.

(** An empty corpus is no error: with bounds [1 <= min_chunksize <=
    max_chunksize] that a float64 holds exactly, the heuristic returns
    [min_chunksize] and one worker. *)
Theorem calc_chunksize_empty (fuel : nat) (cpu_count min_chunksize max_chunksize : Z) :
  (1 <= fuel)%nat -> 0 <= cpu_count -> 1 <= min_chunksize <= max_chunksize ->
  float_sized cpu_count 0 min_chunksize max_chunksize ->
  calc_chunksize fuel cpu_count 0 min_chunksize max_chunksize
  = Some (Returns (min_chunksize, 1)).
Proof.
  intros Hfuel Hcpu Hb _. unfold calc_chunksize.
  assert (Hc0 : Np.clip (Np.ceil_div (Np.ceil_div 0 (or_1 cpu_count)) 5)
                        min_chunksize max_chunksize = min_chunksize).
  { unfold Np.ceil_div, Np.clip. cbn. lia. }
  rewrite Hc0. destruct fuel as [|fuel]; [lia|]. cbn [grow_chunk_size].
  destruct (Z.eqb_spec min_chunksize 0) as [|_]; [lia|].
  rewrite Z.mod_0_l by lia. cbn [Z.eqb].
  rewrite Z.quot_0_l by lia. rewrite Z.min_r by lia. reflexivity.
Qed.

Lemma calc_chunksize_empty_witness :
  calc_chunksize 1 8 0 4 2000 = Some (Returns (4, 1)).
Proof.
  apply (calc_chunksize_empty 1 8 4 2000); try lia.
  unfold float_sized, float_exact. lia.
Defined.

(** ** The workers side by side *)

Lemma nth_zip_star (rows : list (list string)) (k j : nat) :
  rows <> [] -> Forall (fun row => List.length row = k) rows -> (j < k)%nat ->
  nth j (zip_star rows) [] = List.map (fun row => nth j row EmptyString) rows.
Proof.
  induction rows as [|row rest IH]; intros Hne Hall Hj; [congruence|].
  inversion Hall as [|? ? Hrow Hrest]; subst.
  destruct rest as [|row' rest'].
  - cbn [zip_star List.map].
    rewrite (nth_indep _ [] [EmptyString]) by (rewrite List.length_map; assumption).
    now rewrite (map_nth (fun w => [w])).
  - assert (Hlen : List.length (zip_star (row' :: rest')) = List.length row).
    { apply length_zip_star; [discriminate | exact Hrest]. }
    change (zip_star (row :: row' :: rest'))
      with (List.map (fun p => fst p :: snd p) (combine row (zip_star (row' :: rest')))).
    rewrite (nth_indep _ [] ((fun p => fst p :: snd p) (EmptyString, [])))
      by (rewrite List.length_map, length_combine; lia).
    rewrite (map_nth (fun p => fst p :: snd p)).
    rewrite combine_nth by (symmetry; exact Hlen).
    cbn [fst snd List.map]. f_equal. apply IH; [discriminate | exact Hrest | exact Hj].
Qed.

(** The workers stand side by side: with three pictures of the same height,
    the j-th line logged is the j-th line of each of the [n] pictures drawn,
    in the order drawn, joined by two spaces. *)
Theorem log_ascii_workers_side_by_side
        (WORKER_M WORKER_F WORKER_X : string) (randint : nat -> Z) (n : Z) (log : logger)
        (j : nat) :
  count_char newline WORKER_M = count_char newline WORKER_F ->
  count_char newline WORKER_X = count_char newline WORKER_F ->
  1 <= n -> (j <= count_char newline WORKER_F)%nat ->
  nth (List.length log + j) (log_ascii_workers WORKER_M WORKER_F WORKER_X randint n log)
      EmptyString
  = join "  " (List.map (fun i => nth j (worker_lines WORKER_M WORKER_F WORKER_X (randint i))
                                     EmptyString)
                        (seq 0 (Z.to_nat n))).
Proof.
  intros Hm Hx Hn Hj. unfold log_ascii_workers.
  set (rows := List.map _ (seq 0 (Z.to_nat n))).
  assert (Hfold : forall zs lg, fold_left (fun lg z => info lg (join "  " z)) zs lg
                               = (lg ++ List.map (join "  ") zs)%list).
  { induction zs as [|z zs IH]; intros lg; cbn [fold_left List.map].
    - now rewrite app_nil_r.
    - rewrite IH. unfold info. now rewrite <- app_assoc. }
  rewrite Hfold, app_nth2_plus.
  assert (Hrows : Forall (fun row => List.length row = S (count_char newline WORKER_F)) rows).
  { unfold rows. apply Forall_map, Forall_forall. intros i _. unfold worker_lines.
    destruct (randint i mod 3 =? 0); [apply length_split_on|].
    destruct (randint i mod 3 =? 1); rewrite length_split_on; congruence. }
  assert (Hne : rows <> []).
  { unfold rows. destruct (Z.to_nat n) eqn:E; [lia | discriminate]. }
  rewrite (nth_indep _ EmptyString (join "  " []))
    by (rewrite List.length_map, (length_zip_star rows _ Hne Hrows); lia).
  rewrite (map_nth (join "  ")).
  rewrite (nth_zip_star rows _ j Hne Hrows) by lia.
  unfold rows. now rewrite List.map_map.
Qed.

Lemma log_ascii_workers_side_by_side_witness :
  nth (List.length ["old"] + 0)
      (log_ascii_workers "m" "f" "x" (fun i => Z.of_nat i) 3 ["old"]) EmptyString
  = "f  m  x".
Proof.
  apply (log_ascii_workers_side_by_side "m" "f" "x" (fun i => Z.of_nat i) 3 ["old"] 0);
    try reflexivity; lia.
Defined.
